(** * Package [l]: a process-wide logging facade over zap and lumberjack

    Shallow embedding of [Setup], [Unsetup], [ensureInitialized], the three
    field encoders and the twelve leveled logging functions, followed by the
    properties of the package that the specification states.

    Go strings are byte sequences: they are modelled by [string], one [ascii]
    per byte.  Go [int] and [zapcore.Level] (an [int8]) are modelled by [Z].
    Nil-able pointers and interface values are [option]. *)

From Stdlib Require Import ZArith Lia Bool List Ascii String.
From stdpp Require Import base option list gmap strings.

Import ListNotations.
Set Warnings "-register-all".
Local Open Scope string_scope.
Local Open Scope Z_scope.

(** ** Go standard library: package [strings] *)

Module GoStrings.

(** [len(s)] *)
Definition len (s : string) : Z := Z.of_nat (String.length s).

(** [strings.Index(s, substr)]: byte index of the first occurrence of
    [substr] in [s], or [-1]. *)
Fixpoint Index (s substr : string) : Z :=
  if String.prefix substr s then 0
  else match s with
       | EmptyString => -1
       | String _ s' =>
           let r := Index s' substr in
           if r =? -1 then -1 else r + 1
       end.

(** The slice expression [s[lo:]], for [0 <= lo <= len(s)]. *)
Fixpoint drop (n : nat) (s : string) : string :=
  match n, s with
  | O, _ => s
  | S n', String _ s' => drop n' s'
  | S _, EmptyString => EmptyString
  end.

Definition slice_from (s : string) (lo : Z) : string := drop (Z.to_nat lo) s.

Definition isASCII (c : ascii) : bool := (N_of_ascii c <? 128)%N.

Definition isUpper (c : ascii) : bool :=
  ((65 <=? N_of_ascii c) && (N_of_ascii c <=? 90))%N.

(** ['A'..'Z'] to ['a'..'z'], every other byte unchanged. *)
Definition lowerByte (c : ascii) : ascii :=
  if isUpper c then ascii_of_N (N_of_ascii c + 32) else c.

Fixpoint allASCII (s : string) : bool :=
  match s with
  | EmptyString => true
  | String c s' => isASCII c && allASCII s'
  end.

Fixpoint mapBytes (f : ascii -> ascii) (s : string) : string :=
  match s with
  | EmptyString => EmptyString
  | String c s' => String (f c) (mapBytes f s')
  end.

(** [strings.ToLower].  On a string of ASCII bytes it lowers ['A'..'Z']
    byte by byte; any other string goes through the Unicode case tables,
    which are the argument [unicodeLower]. *)
Definition ToLower (unicodeLower : string -> string) (s : string) : string :=
  if allASCII s then mapBytes lowerByte s else unicodeLower s.

(** Two strings that differ only in the case of ASCII letters. *)
Fixpoint sameFold (s t : string) : bool :=
  match s, t with
  | EmptyString, EmptyString => true
  | String c s', String d t' =>
      Ascii.eqb (lowerByte c) (lowerByte d) && isASCII c && isASCII d && sameFold s' t'
  | _, _ => false
  end.

Fixpoint hasByte (b : ascii) (s : string) : bool :=
  match s with
  | EmptyString => false
  | String c s' => Ascii.eqb c b || hasByte b s'
  end.

End GoStrings.

(** ** Go standard library: [time.Time.Format]

    A [Time] is taken through its accessors: the calendar date and clock of
    the instant in its location, and the nanosecond within the second. *)

Module GoTime.

Record Time := mkTime {
  Year : Z; Month : Z; Day : Z; YearDay : Z;
  Hour : Z; Minute : Z; Second : Z; Nanosecond : Z
}.

(** What [Date], [Clock], [YearDay] and [Nanosecond] can return. *)
Definition valid (t : Time) : Prop :=
  1 <= Month t <= 12 /\ 1 <= Day t <= 31 /\ 1 <= YearDay t <= 366 /\
  0 <= Hour t <= 23 /\ 0 <= Minute t <= 59 /\ 0 <= Second t <= 59 /\
  0 <= Nanosecond t <= 999999999.

Definition digit (d : Z) : ascii := ascii_of_N (48 + Z.to_N d).

(** Decimal digits of [u >= 0], most significant first; [fuel] bounds the
    number of digits. *)
Fixpoint digits (fuel : nat) (u : Z) (acc : string) : string :=
  match fuel with
  | O => acc
  | S fuel' =>
      let acc' := String (digit (u mod 10)) acc in
      if u / 10 =? 0 then acc' else digits fuel' (u / 10) acc'
  end.

Definition itoa (u : Z) : string := digits (S (Z.to_nat (Z.log2 u))) u "".

Fixpoint zeros (n : nat) : string :=
  match n with O => "" | S n' => String "0" (zeros n') end.

(** [appendInt(b, x, width)]: sign, zero padding up to [width], digits. *)
Definition appendInt (b : string) (x : Z) (width : Z) : string :=
  let u := Z.abs x in
  let ds := itoa u in
  b +:+ (if x <? 0 then "-" else "")
    +:+ zeros (Z.to_nat (width - GoStrings.len ds)) +:+ ds.

(** The layout elements that begin with one of the bytes
    ['0'..'5'], ['.'] and [','].  (The elements that begin with a letter,
    ['_'], ['-'] are not part of this model: such a byte is copied as it
    is.) *)
Inductive std :=
| stdLongYear | stdYear | stdZeroMonth | stdNumMonth | stdZeroDay | stdDay
| stdZeroYearDay | stdHour | stdZeroHour12 | stdHour12
| stdZeroMinute | stdMinute | stdZeroSecond | stdSecond
| stdFracSecond0 (n : nat) (sep : ascii)
| stdFracSecond9 (n : nat) (sep : ascii).

Definition isDigit (c : ascii) : bool :=
  ((48 <=? N_of_ascii c) && (N_of_ascii c <=? 57))%N.

(** The run of bytes equal to [ch] at the head of [s]: its length and
    what follows it. *)
Fixpoint spanByte (ch : ascii) (s : string) : nat * string :=
  match s with
  | String c s' =>
      if Ascii.eqb c ch then let '(n, r) := spanByte ch s' in (S n, r)
      else (O, s)
  | EmptyString => (O, s)
  end.

Definition headIsDigit (s : string) : bool :=
  match s with String c _ => isDigit c | EmptyString => false end.

(** The layout element at the head of [layout], with the rest. *)
Definition stdAt (layout : string) : option (std * string) :=
  match layout with
  | String c rest =>
      if Ascii.eqb c "0" then
        match rest with
        | String d rest' =>
            if Ascii.eqb d "1" then Some (stdZeroMonth, rest')
            else if Ascii.eqb d "2" then Some (stdZeroDay, rest')
            else if Ascii.eqb d "3" then Some (stdZeroHour12, rest')
            else if Ascii.eqb d "4" then Some (stdZeroMinute, rest')
            else if Ascii.eqb d "5" then Some (stdZeroSecond, rest')
            else if Ascii.eqb d "6" then Some (stdYear, rest')
            else match rest' with
                 | String e rest'' =>
                     if Ascii.eqb d "0" && Ascii.eqb e "2"
                     then Some (stdZeroYearDay, rest'') else None
                 | EmptyString => None
                 end
        | EmptyString => None
        end
      else if Ascii.eqb c "1" then
        match rest with
        | String d rest' =>
            if Ascii.eqb d "5" then Some (stdHour, rest')
            else Some (stdNumMonth, rest)
        | EmptyString => Some (stdNumMonth, rest)
        end
      else if Ascii.eqb c "2" then
        if String.prefix "006" rest
        then Some (stdLongYear, GoStrings.drop 3 rest)
        else Some (stdDay, rest)
      else if Ascii.eqb c "3" then Some (stdHour12, rest)
      else if Ascii.eqb c "4" then Some (stdMinute, rest)
      else if Ascii.eqb c "5" then Some (stdSecond, rest)
      else if Ascii.eqb c "." || Ascii.eqb c "," then
        match rest with
        | String ch _ =>
            if Ascii.eqb ch "0" || Ascii.eqb ch "9" then
              let '(n, after) := spanByte ch rest in
              if headIsDigit after then None
              else Some (if Ascii.eqb ch "9" then stdFracSecond9 n c
                         else stdFracSecond0 n c, after)
            else None
        | EmptyString => None
        end
      else None
  | EmptyString => None
  end.

(** [nextStdChunk]: the literal prefix, the first layout element and the
    suffix after it; no element when the layout has none left. *)
Fixpoint nextStdChunk (layout : string) : string * option std * string :=
  match stdAt layout with
  | Some (s, suffix) => ("", Some s, suffix)
  | None =>
      match layout with
      | EmptyString => ("", None, "")
      | String c rest =>
          let '(prefix, s, suffix) := nextStdChunk rest in
          (String c prefix, s, suffix)
      end
  end.

(** [appendNano]: the separator and the first [n] of the nine digits of
    the nanosecond; the [9] form drops trailing zeros, and the separator
    with them when nothing is left. *)
Fixpoint take (n : nat) (s : string) : string :=
  match n, s with
  | S n', String c s' => String c (take n' s')
  | _, _ => ""
  end.

Fixpoint trimZeros (rev_digits : list ascii) : list ascii :=
  match rev_digits with
  | c :: r => if Ascii.eqb c "0" then trimZeros r else rev_digits
  | [] => []
  end.

Definition appendNano (b : string) (nanosec : Z) (trim : bool) (n : nat) (sep : ascii) : string :=
  if trim && ((n =? 0)%nat || (nanosec =? 0)) then b
  else
    let ds := take n (appendInt "" nanosec 9) in
    if trim then
      match trimZeros (rev (list_ascii_of_string ds)) with
      | [] => b
      | r => b +:+ String sep (string_of_list_ascii (rev r))
      end
    else b +:+ String sep ds.

Definition hour12 (h : Z) : Z := let hr := h mod 12 in if hr =? 0 then 12 else hr.

Definition appendStd (b : string) (t : Time) (s : std) : string :=
  match s with
  | stdLongYear => appendInt b (Year t) 4
  | stdYear => appendInt b (Z.rem (Z.abs (Year t)) 100) 2
  | stdZeroMonth => appendInt b (Month t) 2
  | stdNumMonth => appendInt b (Month t) 0
  | stdZeroDay => appendInt b (Day t) 2
  | stdDay => appendInt b (Day t) 0
  | stdZeroYearDay => appendInt b (YearDay t) 3
  | stdHour => appendInt b (Hour t) 2
  | stdZeroHour12 => appendInt b (hour12 (Hour t)) 2
  | stdHour12 => appendInt b (hour12 (Hour t)) 0
  | stdZeroMinute => appendInt b (Minute t) 2
  | stdMinute => appendInt b (Minute t) 0
  | stdZeroSecond => appendInt b (Second t) 2
  | stdSecond => appendInt b (Second t) 0
  | stdFracSecond0 n sep => appendNano b (Nanosecond t) false n sep
  | stdFracSecond9 n sep => appendNano b (Nanosecond t) true n sep
  end.

(** The loop of [appendFormat]: one layout element per iteration.  Every
    iteration that finds an element consumes at least one byte of the
    layout, so [S (length layout)] iterations are enough. *)
Fixpoint appendFormat (fuel : nat) (b : string) (t : Time) (layout : string) : string :=
  match fuel with
  | O => b
  | S fuel' =>
      match layout with
      | EmptyString => b
      | _ =>
          let '(prefix, s, suffix) := nextStdChunk layout in
          let b := b +:+ prefix in
          match s with
          | None => b
          | Some s => appendFormat fuel' (appendStd b t s) t suffix
          end
      end
  end.

Definition Format (t : Time) (layout : string) : string :=
  appendFormat (S (String.length layout)) "" t layout.

End GoTime.

(** ** zap, zapcore and lumberjack: the interface the package uses *)

Module Lumberjack.

(** [lumberjack.Logger], the rotating file writer. *)
Record Logger := {
  Filename : string;
  MaxSize : Z;      (* megabytes *)
  MaxAge : Z;       (* days *)
  MaxBackups : Z;
  Compress : bool
}.

End Lumberjack.

Module Zap.

(** [zapcore.Level] *)
Definition Level := Z.
Definition DebugLevel : Level := -1.
Definition InfoLevel : Level := 0.
Definition WarnLevel : Level := 1.
Definition ErrorLevel : Level := 2.
Definition DPanicLevel : Level := 3.
Definition PanicLevel : Level := 4.
Definition FatalLevel : Level := 5.

(** [Level.Enabled]: a threshold [l] lets [lvl] through when [lvl >= l]. *)
Definition Enabled (l lvl : Level) : bool := l <=? lvl.

(** [zapcore.PrimitiveArrayEncoder], as the sequence of what was appended. *)
Definition PrimitiveArrayEncoder := list string.

Definition AppendString (enc : PrimitiveArrayEncoder) (s : string) : PrimitiveArrayEncoder :=
  (enc ++ [s])%list.

(** [zapcore.EntryCaller], through the one method the package calls. *)
Record EntryCaller := { TrimmedPath : string }.

(** The duration encoders zapcore provides. *)
Inductive DurationEncoder :=
| SecondsDurationEncoder | NanosDurationEncoder
| MillisDurationEncoder | StringDurationEncoder.

Record EncoderConfig := {
  MessageKey : string; LevelKey : string; TimeKey : string; NameKey : string;
  CallerKey : string; FunctionKey : string; StacktraceKey : string;
  LineEnding : string;
  EncodeLevel : Level -> PrimitiveArrayEncoder -> PrimitiveArrayEncoder;
  EncodeTime : GoTime.Time -> PrimitiveArrayEncoder -> PrimitiveArrayEncoder;
  EncodeDuration : DurationEncoder;
  EncodeCaller : EntryCaller -> PrimitiveArrayEncoder -> PrimitiveArrayEncoder;
  ConsoleSeparator : string
}.

Inductive Encoder :=
| NewConsoleEncoder (cfg : EncoderConfig)
| NewJSONEncoder (cfg : EncoderConfig).

(** The [io.Writer]s the package hands to zap. *)
Inductive Writer :=
| osStdout
| rotating (hook : Lumberjack.Logger).

Inductive WriteSyncer :=
| AddSync (w : Writer)
| multiWriteSyncer (ws : list WriteSyncer)
| BufferedWriteSyncer (WS : WriteSyncer) (Size : Z).

(** [zapcore.NewMultiWriteSyncer]: a single syncer is returned as it is. *)
Definition NewMultiWriteSyncer (ws : list WriteSyncer) : WriteSyncer :=
  match ws with
  | [w] => w
  | _ => multiWriteSyncer ws
  end.

(** The writers a line written to [w] ends up in, in order. *)
Fixpoint destinations (w : WriteSyncer) : list Writer :=
  match w with
  | AddSync x => [x]
  | multiWriteSyncer ws => flat_map destinations ws
  | BufferedWriteSyncer inner _ => destinations inner
  end.

(** Whether writes to [w] go through a buffer, and of which size. *)
Definition bufferSize (w : WriteSyncer) : option Z :=
  match w with
  | BufferedWriteSyncer _ size => Some size
  | _ => None
  end.

Record Core := NewCore {
  enc : Encoder;
  out : WriteSyncer;
  enab : Level
}.

Record Logger := {
  core : Core;
  addCaller : bool;
  callerSkip : Z
}.

Inductive Option :=
| AddCaller
| AddCallerSkip (skip : Z).

Definition applyOption (log : Logger) (o : Option) : Logger :=
  match o with
  | AddCaller =>
      {| core := core log; addCaller := true; callerSkip := callerSkip log |}
  | AddCallerSkip skip =>
      {| core := core log; addCaller := addCaller log;
         callerSkip := callerSkip log + skip |}
  end.

(** [zap.New(core, options...)] *)
Definition New (c : Core) (options : list Option) : Logger :=
  fold_left applyOption options
    {| core := c; addCaller := false; callerSkip := 0 |}.

Record SugaredLogger := { base : Logger }.

(** [Logger.Sugar]: the sugared wrapper skips its own two frames. *)
Definition Sugar (log : Logger) : SugaredLogger :=
  {| base := {| core := core log; addCaller := addCaller log;
                callerSkip := callerSkip log + 2 |} |}.

(** A value of type [interface{}] passed to a sugared call. *)
Inductive Value :=
| VNil
| VBool (b : bool)
| VInt (n : Z)
| VString (s : string)
| VError (msg : string).

(** The message of a sugared call, before rendering: [fmt.Sprint] of the
    arguments, or [fmt.Sprintf] of a template and the arguments. *)
Inductive Message :=
| Sprint (args : list Value)
| Sprintf (template : string) (args : list Value).

Record Entry := { EntryLevel : Level; EntryMessage : Message }.

(** What a call does after the entry was handed to the core. *)
Inductive After :=
| Return
| OsExit (code : Z)
| GoPanic.

Definition terminal (lvl : Level) : After :=
  if lvl =? FatalLevel then OsExit 1
  else if lvl =? PanicLevel then GoPanic
  else Return.

(** [SugaredLogger.log]: the entry reaches the writer when the core
    enables its level; fatal and panic entries end the call their way. *)
Definition log (s : SugaredLogger) (lvl : Level) (msg : Message)
  : option Entry * After :=
  (if Enabled (enab (core (base s))) lvl
   then Some {| EntryLevel := lvl; EntryMessage := msg |} else None,
   terminal lvl).

End Zap.

(** ** What the package takes from its collaborators without fixing it *)

Class Collaborators := {
  (** [zapcore.Level.CapitalString] *)
  CapitalString : Zap.Level -> string;
  (** [strings.ToLower] on a string that is not all ASCII *)
  unicodeLower : string -> string;
  (** [zap.NewDevelopmentEncoderConfig()] *)
  NewDevelopmentEncoderConfig : Zap.EncoderConfig
}.

(** [Config] (config.go): the capability the embedding application supplies.
    Its methods are read-only accessors; a nil interface value is [None]. *)
Record Config := {
  Level : string;
  Path : string;
  Console : bool;
  Async : bool
}.

(** The Go [error] result: [None] is [nil]. *)
Definition error := option string.

(** The package-level variables [logger] and [sugar], and whether [initOnce]
    has completed.  ([initMu] has no effect on a single thread; it is part of
    the interleaving model below.) *)
Record Globals := {
  logger : option Zap.Logger;
  sugar : option Zap.SugaredLogger;
  initOnce : bool
}.

(** What a leveled logging function did: the handle it forwarded to, the
    entry that reached the writer (if enabled) and how the call ended; or
    the nil dereference of an unset handle. *)
Inductive Result :=
| Logged (via : Zap.SugaredLogger) (e : option Zap.Entry) (a : Zap.After)
| NilDereference.

Section Package.

Context {ext : Collaborators}.

(** *** Field encoders *)

Definition EncodeTime (t : GoTime.Time) (enc : Zap.PrimitiveArrayEncoder)
  : Zap.PrimitiveArrayEncoder :=
  Zap.AppendString enc (GoTime.Format t "20060102 15:04:05.000").

Definition EncodeLevel (l : Zap.Level) (enc : Zap.PrimitiveArrayEncoder)
  : Zap.PrimitiveArrayEncoder :=
  if l =? Zap.DebugLevel then Zap.AppendString enc "D"
  else if l =? Zap.InfoLevel then Zap.AppendString enc "I"
  else if l =? Zap.WarnLevel then Zap.AppendString enc "W"
  else if l =? Zap.ErrorLevel then Zap.AppendString enc "E"
  else if l =? Zap.FatalLevel then Zap.AppendString enc "F"
  else if l =? Zap.PanicLevel then Zap.AppendString enc "P"
  else Zap.AppendString enc (CapitalString l).

Definition EncodeCaller (caller : Zap.EntryCaller) (enc : Zap.PrimitiveArrayEncoder)
  : Zap.PrimitiveArrayEncoder :=
  let callerPath := Zap.TrimmedPath caller in
  let idx := GoStrings.Index callerPath "/" in
  let callerPath :=
    if negb (idx =? -1) then GoStrings.slice_from callerPath (idx + 1)
    else callerPath in
  Zap.AppendString enc callerPath.

(** *** Setup *)

(** The encoder configuration both construction sites assemble. *)
Definition encoderConfig : Zap.EncoderConfig :=
  let c := NewDevelopmentEncoderConfig in
  {| Zap.MessageKey := Zap.MessageKey c; Zap.LevelKey := Zap.LevelKey c;
     Zap.TimeKey := Zap.TimeKey c; Zap.NameKey := Zap.NameKey c;
     Zap.CallerKey := Zap.CallerKey c; Zap.FunctionKey := Zap.FunctionKey c;
     Zap.StacktraceKey := Zap.StacktraceKey c;
     Zap.LineEnding := Zap.LineEnding c;
     Zap.EncodeLevel := EncodeLevel;
     Zap.EncodeTime := EncodeTime;
     Zap.EncodeDuration := Zap.SecondsDurationEncoder;
     Zap.EncodeCaller := EncodeCaller;
     Zap.ConsoleSeparator := " " |}.

(** [Setup] up to the construction of the core, before the critical
    section. *)
Definition Setup_core (config : option Config) : Zap.Core :=
  let encoderConfig := encoderConfig in
  let level := Zap.DebugLevel in
  let level :=
    match config with
    | Some c =>
        if negb (String.eqb (Level c) "") then
          let l := GoStrings.ToLower unicodeLower (Level c) in
          if String.eqb l "debug" then Zap.DebugLevel
          else if String.eqb l "info" then Zap.InfoLevel
          else if String.eqb l "warn" || String.eqb l "warning" then Zap.WarnLevel
          else if String.eqb l "error" then Zap.ErrorLevel
          else if String.eqb l "fatal" then Zap.FatalLevel
          else if String.eqb l "panic" then Zap.PanicLevel
          else level
        else level
    | None => level
    end in
  let writer :=
    match config with
    | Some c =>
        let hook :=
          {| Lumberjack.Filename := Path c;
             Lumberjack.MaxSize := 10;
             Lumberjack.MaxBackups := 30;
             Lumberjack.MaxAge := 7;
             Lumberjack.Compress := true |} in
        if Console c then
          Zap.NewMultiWriteSyncer
            [Zap.AddSync Zap.osStdout; Zap.AddSync (Zap.rotating hook)]
        else Zap.AddSync (Zap.rotating hook)
    | None => Zap.NewMultiWriteSyncer [Zap.AddSync Zap.osStdout]
    end in
  let writer :=
    match config with
    | Some c =>
        if Async c then Zap.BufferedWriteSyncer writer 4096 else writer
    | None => writer
    end in
  Zap.NewCore (Zap.NewConsoleEncoder encoderConfig) writer level.

Definition Setup (config : option Config) (g : Globals) : Globals * error :=
  let core := Setup_core config in
  let g := {| logger := Some (Zap.New core [Zap.AddCaller; Zap.AddCallerSkip 1]);
              sugar := sugar g; initOnce := initOnce g |} in
  let g := {| logger := logger g; sugar := Zap.Sugar <$> logger g;
              initOnce := initOnce g |} in
  (g, None).

Definition Unsetup (g : Globals) : Globals * error := (g, None).

(** *** ensureInitialized *)

(** The core of the default logger. *)
Definition default_core : Zap.Core :=
  let encoderConfig := encoderConfig in
  Zap.NewCore (Zap.NewConsoleEncoder encoderConfig)
              (Zap.AddSync Zap.osStdout) Zap.DebugLevel.

(** [initOnce.Do(f)] on one thread. *)
Definition once_Do (f : Globals -> Globals) (g : Globals) : Globals :=
  if initOnce g then g
  else let g := f g in
       {| logger := logger g; sugar := sugar g; initOnce := true |}.

Definition ensureInitialized (g : Globals) : Globals :=
  match sugar g with
  | Some _ => g
  | None =>
      once_Do (fun g =>
        match sugar g with
        | Some _ => g
        | None =>
            let core := default_core in
            let g := {| logger := Some (Zap.New core [Zap.AddCaller; Zap.AddCallerSkip 1]);
                        sugar := sugar g; initOnce := initOnce g |} in
            {| logger := logger g; sugar := Zap.Sugar <$> logger g;
               initOnce := initOnce g |}
        end) g
  end.

(** *** Leveled logging functions *)

(** The call [sugar.M(...)] on the package variable. *)
Definition forward (g : Globals) (lvl : Zap.Level) (msg : Zap.Message) : Result :=
  match sugar g with
  | Some s => let '(e, a) := Zap.log s lvl msg in Logged s e a
  | None => NilDereference
  end.

Definition Debug (args : list Zap.Value) (g : Globals) : Globals * Result :=
  let g := ensureInitialized g in (g, forward g Zap.DebugLevel (Zap.Sprint args)).

Definition Info (args : list Zap.Value) (g : Globals) : Globals * Result :=
  let g := ensureInitialized g in (g, forward g Zap.InfoLevel (Zap.Sprint args)).

Definition Warn (args : list Zap.Value) (g : Globals) : Globals * Result :=
  let g := ensureInitialized g in (g, forward g Zap.WarnLevel (Zap.Sprint args)).

Definition Error (args : list Zap.Value) (g : Globals) : Globals * Result :=
  let g := ensureInitialized g in (g, forward g Zap.ErrorLevel (Zap.Sprint args)).

Definition Fatal (args : list Zap.Value) (g : Globals) : Globals * Result :=
  let g := ensureInitialized g in (g, forward g Zap.FatalLevel (Zap.Sprint args)).

Definition Panic (args : list Zap.Value) (g : Globals) : Globals * Result :=
  let g := ensureInitialized g in (g, forward g Zap.PanicLevel (Zap.Sprint args)).

Definition Debugf (message : string) (args : list Zap.Value) (g : Globals) : Globals * Result :=
  let g := ensureInitialized g in (g, forward g Zap.DebugLevel (Zap.Sprintf message args)).

Definition Infof (message : string) (args : list Zap.Value) (g : Globals) : Globals * Result :=
  let g := ensureInitialized g in (g, forward g Zap.InfoLevel (Zap.Sprintf message args)).

Definition Warnf (message : string) (args : list Zap.Value) (g : Globals) : Globals * Result :=
  let g := ensureInitialized g in (g, forward g Zap.WarnLevel (Zap.Sprintf message args)).

Definition Errorf (message : string) (args : list Zap.Value) (g : Globals) : Globals * Result :=
  let g := ensureInitialized g in (g, forward g Zap.ErrorLevel (Zap.Sprintf message args)).

Definition Fatalf (message : string) (args : list Zap.Value) (g : Globals) : Globals * Result :=
  let g := ensureInitialized g in (g, forward g Zap.FatalLevel (Zap.Sprintf message args)).

Definition Panicf (message : string) (args : list Zap.Value) (g : Globals) : Globals * Result :=
  let g := ensureInitialized g in (g, forward g Zap.PanicLevel (Zap.Sprintf message args)).

End Package.

(** ** Threads calling into the package

    The package has no threads of its own: it runs on the goroutines of the
    embedding application.  A thread is a sequence of calls of the exported
    functions; the threads of a process are interleaved statement by
    statement. *)

Inductive Call :=
| CallSetup (config : option Config)
| CallUnsetup
| CallDebug (args : list Zap.Value)
| CallInfo (args : list Zap.Value)
| CallWarn (args : list Zap.Value)
| CallError (args : list Zap.Value)
| CallFatal (args : list Zap.Value)
| CallPanic (args : list Zap.Value)
| CallDebugf (message : string) (args : list Zap.Value)
| CallInfof (message : string) (args : list Zap.Value)
| CallWarnf (message : string) (args : list Zap.Value)
| CallErrorf (message : string) (args : list Zap.Value)
| CallFatalf (message : string) (args : list Zap.Value)
| CallPanicf (message : string) (args : list Zap.Value).

(** The level and message a leveled logging function forwards to [sugar]. *)
Definition forwarded (c : Call) : option (Zap.Level * Zap.Message) :=
  match c with
  | CallSetup _ | CallUnsetup => None
  | CallDebug args => Some (Zap.DebugLevel, Zap.Sprint args)
  | CallInfo args => Some (Zap.InfoLevel, Zap.Sprint args)
  | CallWarn args => Some (Zap.WarnLevel, Zap.Sprint args)
  | CallError args => Some (Zap.ErrorLevel, Zap.Sprint args)
  | CallFatal args => Some (Zap.FatalLevel, Zap.Sprint args)
  | CallPanic args => Some (Zap.PanicLevel, Zap.Sprint args)
  | CallDebugf message args => Some (Zap.DebugLevel, Zap.Sprintf message args)
  | CallInfof message args => Some (Zap.InfoLevel, Zap.Sprintf message args)
  | CallWarnf message args => Some (Zap.WarnLevel, Zap.Sprintf message args)
  | CallErrorf message args => Some (Zap.ErrorLevel, Zap.Sprintf message args)
  | CallFatalf message args => Some (Zap.FatalLevel, Zap.Sprintf message args)
  | CallPanicf message args => Some (Zap.PanicLevel, Zap.Sprintf message args)
  end.

Definition isSetup (c : Call) : bool :=
  match c with CallSetup _ => true | _ => false end.

(** What one call returns or does, on a single thread. *)
Inductive Outcome :=
| Err (e : error)
| Log (r : Result).

(** Where a thread is in the package's code. *)
Inductive PC :=
| Idle            (* between two calls *)
| EI_RLock        (* ensureInitialized: initMu.RLock() *)
| EI_FastCheck    (* if sugar != nil, under the read lock *)
| EI_FastRUnlock  (* initMu.RUnlock(); return *)
| EI_RUnlock      (* initMu.RUnlock() *)
| EI_Once         (* initOnce.Do(func() { *)
| EI_Lock         (* initMu.Lock(); defer initMu.Unlock() *)
| EI_Recheck      (* if sugar != nil { return } *)
| EI_Logger       (* core := ...; logger = zap.New(core, ...) *)
| EI_Sugar        (* sugar = logger.Sugar() *)
| EI_Unlock       (* the deferred initMu.Unlock() *)
| EI_OnceDone     (* }): initOnce records completion *)
| Forward         (* sugar.Debug(args...), and the like *)
| SU_Lock         (* Setup: the core is built; initMu.Lock() *)
| SU_Logger       (* logger = zap.New(core, ...) *)
| SU_Sugar        (* sugar = logger.Sugar() *)
| SU_Unlock       (* initMu.Unlock() *)
| SU_Return       (* return nil *)
| Fault           (* nil pointer dereference *)
| Panicking       (* the panic of a Panic-level entry unwinds the thread *)
| Exited.         (* os.Exit of a Fatal-level entry *)

Record Thread := {
  pc : PC;
  calls : list Call;        (* the call in progress, then the calls to come *)
  returned : list error     (* what Setup and Unsetup returned so far *)
}.

(** [sync.Once] *)
Inductive Once :=
| OnceFresh
| OnceRunning (tid : nat)
| OnceDone.

(** [sync.RWMutex], with the identity of the holders. *)
Record RWMutex := {
  writer : option nat;
  readers : gset nat
}.

Record Emission := {
  by_thread : nat;
  via : Zap.SugaredLogger;
  entry : Zap.Entry
}.

(** Who assigned the handle. *)
Inductive Install :=
| DefaultInstall
| SetupInstall (config : option Config).

Record State := {
  st_logger : option Zap.Logger;
  st_sugar : option Zap.SugaredLogger;
  st_initOnce : Once;
  st_initMu : RWMutex;
  threads : list Thread;
  output : list Emission;        (* newest first *)
  exited : option Z;             (* the exit code, once the process exited *)
  (* history, for the statements only *)
  bodyRuns : nat;                (* runs of the function passed to initOnce.Do *)
  defaultBuilt : nat;            (* constructions of the default logger *)
  installs : list Install        (* assignments of sugar, newest first *)
}.

Definition set_logger (v : option Zap.Logger) (s : State) : State :=
  {| st_logger := v; st_sugar := st_sugar s; st_initOnce := st_initOnce s;
     st_initMu := st_initMu s; threads := threads s; output := output s;
     exited := exited s; bodyRuns := bodyRuns s; defaultBuilt := defaultBuilt s;
     installs := installs s |}.

Definition set_sugar (v : option Zap.SugaredLogger) (s : State) : State :=
  {| st_logger := st_logger s; st_sugar := v; st_initOnce := st_initOnce s;
     st_initMu := st_initMu s; threads := threads s; output := output s;
     exited := exited s; bodyRuns := bodyRuns s; defaultBuilt := defaultBuilt s;
     installs := installs s |}.

Definition set_initOnce (v : Once) (s : State) : State :=
  {| st_logger := st_logger s; st_sugar := st_sugar s; st_initOnce := v;
     st_initMu := st_initMu s; threads := threads s; output := output s;
     exited := exited s; bodyRuns := bodyRuns s; defaultBuilt := defaultBuilt s;
     installs := installs s |}.

Definition set_initMu (v : RWMutex) (s : State) : State :=
  {| st_logger := st_logger s; st_sugar := st_sugar s; st_initOnce := st_initOnce s;
     st_initMu := v; threads := threads s; output := output s;
     exited := exited s; bodyRuns := bodyRuns s; defaultBuilt := defaultBuilt s;
     installs := installs s |}.

Definition set_threads (v : list Thread) (s : State) : State :=
  {| st_logger := st_logger s; st_sugar := st_sugar s; st_initOnce := st_initOnce s;
     st_initMu := st_initMu s; threads := v; output := output s;
     exited := exited s; bodyRuns := bodyRuns s; defaultBuilt := defaultBuilt s;
     installs := installs s |}.

Definition set_output (v : list Emission) (s : State) : State :=
  {| st_logger := st_logger s; st_sugar := st_sugar s; st_initOnce := st_initOnce s;
     st_initMu := st_initMu s; threads := threads s; output := v;
     exited := exited s; bodyRuns := bodyRuns s; defaultBuilt := defaultBuilt s;
     installs := installs s |}.

Definition set_exited (v : option Z) (s : State) : State :=
  {| st_logger := st_logger s; st_sugar := st_sugar s; st_initOnce := st_initOnce s;
     st_initMu := st_initMu s; threads := threads s; output := output s;
     exited := v; bodyRuns := bodyRuns s; defaultBuilt := defaultBuilt s;
     installs := installs s |}.

Definition count_bodyRun (s : State) : State :=
  {| st_logger := st_logger s; st_sugar := st_sugar s; st_initOnce := st_initOnce s;
     st_initMu := st_initMu s; threads := threads s; output := output s;
     exited := exited s; bodyRuns := S (bodyRuns s); defaultBuilt := defaultBuilt s;
     installs := installs s |}.

Definition count_defaultBuilt (s : State) : State :=
  {| st_logger := st_logger s; st_sugar := st_sugar s; st_initOnce := st_initOnce s;
     st_initMu := st_initMu s; threads := threads s; output := output s;
     exited := exited s; bodyRuns := bodyRuns s; defaultBuilt := S (defaultBuilt s);
     installs := installs s |}.

Definition record_install (v : Install) (s : State) : State :=
  {| st_logger := st_logger s; st_sugar := st_sugar s; st_initOnce := st_initOnce s;
     st_initMu := st_initMu s; threads := threads s; output := output s;
     exited := exited s; bodyRuns := bodyRuns s; defaultBuilt := defaultBuilt s;
     installs := v :: installs s |}.

(** Thread [i] continues at [p]. *)
Definition goto (i : nat) (t : Thread) (p : PC) (s : State) : State :=
  set_threads (<[i := {| pc := p; calls := calls t; returned := returned t |}]> (threads s)) s.

(** Thread [i] returns from its call, with an error result or none. *)
Definition ret (i : nat) (t : Thread) (r : list error) (s : State) : State :=
  set_threads (<[i := {| pc := Idle; calls := tail (calls t);
                         returned := (returned t ++ r)%list |}]> (threads s)) s.

Definition lock_free (m : RWMutex) : bool :=
  match writer m with
  | None => bool_decide (readers m = ∅)
  | Some _ => false
  end.

Section Interleaving.

Context {ext : Collaborators}.

(** The handle each construction site installs. *)
Definition setup_logger (config : option Config) : Zap.Logger :=
  Zap.New (Setup_core config) [Zap.AddCaller; Zap.AddCallerSkip 1].

Definition default_logger : Zap.Logger :=
  Zap.New default_core [Zap.AddCaller; Zap.AddCallerSkip 1].

Definition installed (ins : Install) : Zap.SugaredLogger :=
  match ins with
  | DefaultInstall => Zap.Sugar default_logger
  | SetupInstall config => Zap.Sugar (setup_logger config)
  end.

(** One statement of thread [i]; [None] when the thread is blocked, has
    ended, or the process has exited.  A reader is admitted whenever no
    writer holds [initMu]. *)
Definition tstep (i : nat) (s : State) : option State :=
  match exited s with
  | Some _ => None
  | None =>
      t ← threads s !! i;
      match pc t with
      | Idle =>
          match calls t with
          | [] => None
          | c :: _ =>
              match forwarded c with
              | Some _ => Some (goto i t EI_RLock s)
              | None =>
                  match c with
                  | CallSetup _ => Some (goto i t SU_Lock s)
                  | _ => Some (ret i t [None] s)
                  end
              end
          end
      | EI_RLock =>
          match writer (st_initMu s) with
          | None =>
              Some (goto i t EI_FastCheck
                      (set_initMu {| writer := None;
                                     readers := {[i]} ∪ readers (st_initMu s) |} s))
          | Some _ => None
          end
      | EI_FastCheck =>
          match st_sugar s with
          | Some _ => Some (goto i t EI_FastRUnlock s)
          | None => Some (goto i t EI_RUnlock s)
          end
      | EI_FastRUnlock =>
          Some (goto i t Forward
                  (set_initMu {| writer := writer (st_initMu s);
                                 readers := readers (st_initMu s) ∖ {[i]} |} s))
      | EI_RUnlock =>
          Some (goto i t EI_Once
                  (set_initMu {| writer := writer (st_initMu s);
                                 readers := readers (st_initMu s) ∖ {[i]} |} s))
      | EI_Once =>
          match st_initOnce s with
          | OnceFresh =>
              Some (goto i t EI_Lock (count_bodyRun (set_initOnce (OnceRunning i) s)))
          | OnceRunning _ => None
          | OnceDone => Some (goto i t Forward s)
          end
      | EI_Lock =>
          if lock_free (st_initMu s)
          then Some (goto i t EI_Recheck
                       (set_initMu {| writer := Some i;
                                      readers := readers (st_initMu s) |} s))
          else None
      | EI_Recheck =>
          match st_sugar s with
          | Some _ => Some (goto i t EI_Unlock s)
          | None => Some (goto i t EI_Logger s)
          end
      | EI_Logger =>
          Some (goto i t EI_Sugar
                  (count_defaultBuilt (set_logger (Some default_logger) s)))
      | EI_Sugar =>
          Some (goto i t EI_Unlock
                  (record_install DefaultInstall
                     (set_sugar (Zap.Sugar <$> st_logger s) s)))
      | EI_Unlock =>
          Some (goto i t EI_OnceDone
                  (set_initMu {| writer := None;
                                 readers := readers (st_initMu s) |} s))
      | EI_OnceDone =>
          Some (goto i t Forward (set_initOnce OnceDone s))
      | Forward =>
          '(lvl, msg) ← head (calls t) ≫= forwarded;
          match st_sugar s with
          | None => Some (goto i t Fault s)
          | Some sg =>
              let '(e, a) := Zap.log sg lvl msg in
              let s :=
                match e with
                | Some e =>
                    set_output ({| by_thread := i; via := sg; entry := e |}
                                  :: output s) s
                | None => s
                end in
              match a with
              | Zap.Return => Some (ret i t [] s)
              | Zap.OsExit code => Some (goto i t Exited (set_exited (Some code) s))
              | Zap.GoPanic => Some (goto i t Panicking s)
              end
          end
      | SU_Lock =>
          if lock_free (st_initMu s)
          then Some (goto i t SU_Logger
                       (set_initMu {| writer := Some i;
                                      readers := readers (st_initMu s) |} s))
          else None
      | SU_Logger =>
          match calls t with
          | CallSetup config :: _ =>
              Some (goto i t SU_Sugar (set_logger (Some (setup_logger config)) s))
          | _ => None
          end
      | SU_Sugar =>
          match calls t with
          | CallSetup config :: _ =>
              Some (goto i t SU_Unlock
                      (record_install (SetupInstall config)
                         (set_sugar (Zap.Sugar <$> st_logger s) s)))
          | _ => None
          end
      | SU_Unlock =>
          Some (goto i t SU_Return
                  (set_initMu {| writer := None;
                                 readers := readers (st_initMu s) |} s))
      | SU_Return => Some (ret i t [None] s)
      | Fault | Panicking | Exited => None
      end
  end.

(** The process before any call. *)
Definition init (programs : list (list Call)) : State :=
  {| st_logger := None; st_sugar := None; st_initOnce := OnceFresh;
     st_initMu := {| writer := None; readers := ∅ |};
     threads := (λ cs, {| pc := Idle; calls := cs; returned := [] |}) <$> programs;
     output := []; exited := None;
     bodyRuns := 0; defaultBuilt := 0; installs := [] |}.

(** Running a schedule: the thread that moves at each step. *)
Fixpoint run (schedule : list nat) (s : State) : option State :=
  match schedule with
  | [] => Some s
  | i :: rest => tstep i s ≫= run rest
  end.

Definition reachable (programs : list (list Call)) (s : State) : Prop :=
  ∃ schedule, run schedule (init programs) = Some s.

(** One call run to completion on a single thread, in terms of the
    functions above. *)
Definition call (c : Call) (g : Globals) : Globals * Outcome :=
  match c with
  | CallSetup config => let '(g, e) := Setup config g in (g, Err e)
  | CallUnsetup => let '(g, e) := Unsetup g in (g, Err e)
  | CallDebug args => let '(g, r) := Debug args g in (g, Log r)
  | CallInfo args => let '(g, r) := Info args g in (g, Log r)
  | CallWarn args => let '(g, r) := Warn args g in (g, Log r)
  | CallError args => let '(g, r) := Error args g in (g, Log r)
  | CallFatal args => let '(g, r) := Fatal args g in (g, Log r)
  | CallPanic args => let '(g, r) := Panic args g in (g, Log r)
  | CallDebugf m args => let '(g, r) := Debugf m args g in (g, Log r)
  | CallInfof m args => let '(g, r) := Infof m args g in (g, Log r)
  | CallWarnf m args => let '(g, r) := Warnf m args g in (g, Log r)
  | CallErrorf m args => let '(g, r) := Errorf m args g in (g, Log r)
  | CallFatalf m args => let '(g, r) := Fatalf m args g in (g, Log r)
  | CallPanicf m args => let '(g, r) := Panicf m args g in (g, Log r)
  end.

End Interleaving.

(** ** An instance of the collaborators, to run the model on inputs

    [CapitalString] follows zapcore; Unicode lowering leaves non-ASCII bytes
    alone; the four encoders of the development configuration, which the
    package replaces, are stand-ins that append nothing. *)

Definition zap_CapitalString (l : Zap.Level) : string :=
  if l =? Zap.DebugLevel then "DEBUG"
  else if l =? Zap.InfoLevel then "INFO"
  else if l =? Zap.WarnLevel then "WARN"
  else if l =? Zap.ErrorLevel then "ERROR"
  else if l =? Zap.DPanicLevel then "DPANIC"
  else if l =? Zap.PanicLevel then "PANIC"
  else if l =? Zap.FatalLevel then "FATAL"
  else GoTime.appendInt "LEVEL(" l 0 +:+ ")".

Definition sample_collaborators : Collaborators :=
  {| CapitalString := zap_CapitalString;
     unicodeLower := GoStrings.mapBytes GoStrings.lowerByte;
     NewDevelopmentEncoderConfig :=
       {| Zap.MessageKey := "M"; Zap.LevelKey := "L"; Zap.TimeKey := "T";
          Zap.NameKey := "N"; Zap.CallerKey := "C"; Zap.FunctionKey := "";
          Zap.StacktraceKey := "S"; Zap.LineEnding := String (ascii_of_N 10) "";
          Zap.EncodeLevel := λ _ enc, enc;
          Zap.EncodeTime := λ _ enc, enc;
          Zap.EncodeDuration := Zap.StringDurationEncoder;
          Zap.EncodeCaller := λ _ enc, enc;
          Zap.ConsoleSeparator := "" |} |}.

(** Three threads whose first call into the package is a leveled logging
    function, interleaved so that all three find the handle unset. *)
Definition first_calls : list (list Call) :=
  [[CallDebug [Zap.VString "starting"]];
   [CallInfof "%d workers" [Zap.VInt 4]];
   [CallError [Zap.VError "disk full"]]].

Definition first_calls_schedule : list nat :=
  [0; 1; 2; 0; 1; 2; 0; 1; 2; 0; 1; 2;
   0; 0; 0; 0; 0; 0; 0; 0; 1; 2; 1; 2]%nat.

Definition first_calls_state : State :=
  default (init first_calls)
          (run (ext := sample_collaborators) first_calls_schedule (init first_calls)).

(** A first logging call that finds the handle unset, then [Setup] running
    to completion on another thread, then the first thread entering the once
    body up to its re-check. *)
Definition race : list (list Call) :=
  [[CallWarn [Zap.VString "late"]];
   [CallSetup (Some {| Level := "INFO"; Path := "/var/log/app.log";
                       Console := true; Async := false |})]].

Definition race_schedule : list nat :=
  [0; 0; 0; 0; 1; 1; 1; 1; 1; 1; 0; 0]%nat.

Definition race_state : State :=
  default (init race) (run (ext := sample_collaborators) race_schedule (init race)).

(** ** Statement vocabulary *)

(** The [k]-digit decimal numeral of [n], padded with zeros. *)
Fixpoint decimal (k : nat) (n : Z) : string :=
  match k with
  | O => ""
  | S k' => decimal k' (n / 10) +:+ String (GoTime.digit (n mod 10)) ""
  end.

(** [s] has the shape [p]: a decimal digit where [p] has ['d'], and the byte
    of [p] everywhere else. *)
Fixpoint has_shape (p s : string) : bool :=
  match p, s with
  | EmptyString, EmptyString => true
  | String x p', String c s' =>
      (if Ascii.eqb x "d" then GoTime.isDigit c else Ascii.eqb c x) && has_shape p' s'
  | _, _ => false
  end.

(** The text [EncodeTime] appends for a time whose year has at most four
    digits. *)
Definition time_text (t : GoTime.Time) : string :=
  decimal 4 (GoTime.Year t) +:+ decimal 2 (GoTime.Month t) +:+
  decimal 2 (GoTime.Day t) +:+ " " +:+
  decimal 2 (GoTime.Hour t) +:+ ":" +:+ decimal 2 (GoTime.Minute t) +:+ ":" +:+
  decimal 2 (GoTime.Second t) +:+ "." +:+
  decimal 3 (GoTime.Nanosecond t / 1000000).

(** The level names of the configuration and their thresholds. *)
Definition level_names : list (string * Zap.Level) :=
  [("debug", Zap.DebugLevel); ("info", Zap.InfoLevel); ("warn", Zap.WarnLevel);
   ("warning", Zap.WarnLevel); ("error", Zap.ErrorLevel);
   ("fatal", Zap.FatalLevel); ("panic", Zap.PanicLevel)].

(** The threshold of the installed logger. *)
Definition threshold (g : Globals) : option Zap.Level :=
  (λ lg, Zap.enab (Zap.core lg)) <$> logger g.

(** The write syncer of the installed logger. *)
Definition sink (g : Globals) : option Zap.WriteSyncer :=
  (λ lg, Zap.out (Zap.core lg)) <$> logger g.

(** The rotating file sink [Setup] builds for a configuration. *)
Definition rotating_file (c : Config) : Zap.Writer :=
  Zap.rotating {| Lumberjack.Filename := Path c;
                  Lumberjack.MaxSize := 10;
                  Lumberjack.MaxAge := 7;
                  Lumberjack.MaxBackups := 30;
                  Lumberjack.Compress := true |}.

(** The same configuration, not asking for asynchronous writing. *)
Definition synchronous (c : Config) : Config :=
  {| Level := Level c; Path := Path c; Console := Console c; Async := false |}.

(** The package variables of a process before any call. *)
Definition fresh : Globals := {| logger := None; sugar := None; initOnce := false |}.

(** ** One thread in the interleaving model *)

(** The package variables in a state of the interleaving model. *)
Definition globals_of (s : State) : Globals :=
  {| logger := st_logger s; sugar := st_sugar s;
     initOnce := match st_initOnce s with OnceDone => true | _ => false end |}.

(** A process with package variables [g] and one thread, about to make the
    calls [cs]. *)
Definition process_of (g : Globals) (cs : list Call) : State :=
  {| st_logger := logger g; st_sugar := sugar g;
     st_initOnce := if initOnce g then OnceDone else OnceFresh;
     st_initMu := {| writer := None; readers := ∅ |};
     threads := [{| pc := Idle; calls := cs; returned := [] |}];
     output := []; exited := None;
     bodyRuns := 0; defaultBuilt := 0; installs := [] |}.

(** What the outcome of a call looks like in the interleaving model: where
    the thread is, what it got back, what was written, and the exit code. *)
Definition observable (o : Outcome) : PC * list error * list Emission * option Z :=
  match o with
  | Err e => (Idle, [e], [], None)
  | Log NilDereference => (Fault, [], [], None)
  | Log (Logged sg e a) =>
      let written :=
        match e with
        | Some e => [{| by_thread := 0; via := sg; entry := e |}]
        | None => []
        end in
      match a with
      | Zap.Return => (Idle, [], written, None)
      | Zap.OsExit code => (Exited, [], written, Some code)
      | Zap.GoPanic => (Panicking, [], written, None)
      end
  end.

Definition observed (s : State) : option (PC * list error * list Emission * option Z) :=
  (fun t => (pc t, returned t, output s, exited s)) <$> threads s !! 0%nat.

(** ** Invariants of the interleaving model *)

(** Where a thread holds [initMu] for writing, for reading, is inside the
    function passed to [initOnce.Do], relies on a handle being installed,
    has not yet built the default logger, is inside [Setup], is inside a
    leveled logging function. *)
Definition holdsW (p : PC) : bool :=
  match p with
  | EI_Recheck | EI_Logger | EI_Sugar | EI_Unlock
  | SU_Logger | SU_Sugar | SU_Unlock => true
  | _ => false
  end.

Definition holdsR (p : PC) : bool :=
  match p with
  | EI_FastCheck | EI_FastRUnlock | EI_RUnlock => true
  | _ => false
  end.

Definition inBody (p : PC) : bool :=
  match p with
  | EI_Lock | EI_Recheck | EI_Logger | EI_Sugar | EI_Unlock | EI_OnceDone => true
  | _ => false
  end.

Definition needsHandle (p : PC) : bool :=
  match p with
  | EI_FastRUnlock | EI_Unlock | EI_OnceDone | Forward => true
  | _ => false
  end.

Definition beforeBuild (p : PC) : bool :=
  match p with
  | EI_Lock | EI_Recheck | EI_Logger => true
  | _ => false
  end.

Definition assigning (p : PC) : bool :=
  match p with
  | EI_Sugar | SU_Sugar => true
  | _ => false
  end.

Definition inSetup (p : PC) : bool :=
  match p with
  | SU_Lock | SU_Logger | SU_Sugar | SU_Unlock | SU_Return => true
  | _ => false
  end.

Definition inLeveled (p : PC) : bool :=
  match p with
  | EI_RLock | EI_FastCheck | EI_FastRUnlock | EI_RUnlock | EI_Once | EI_Lock
  | EI_Recheck | EI_Logger | EI_Sugar | EI_Unlock | EI_OnceDone | Forward => true
  | _ => false
  end.

(** The programs of a process none of whose threads calls [Setup]. *)
Definition no_Setup_calls (programs : list (list Call)) : Prop :=
  forall p, p ∈ programs -> forallb (fun c => negb (isSetup c)) p = true.

(** An upper bound on the statements a thread has left in its current call,
    and in all its calls: every call takes fewer than 14 statements. *)
Definition remaining (p : PC) : nat :=
  match p with
  | Idle => 13 | EI_RLock => 12 | EI_FastCheck => 11 | EI_FastRUnlock => 2
  | EI_RUnlock => 10 | EI_Once => 9 | EI_Lock => 8 | EI_Recheck => 7
  | EI_Logger => 6 | EI_Sugar => 5 | EI_Unlock => 4 | EI_OnceDone => 3
  | Forward => 1
  | SU_Lock => 12 | SU_Logger => 11 | SU_Sugar => 10 | SU_Unlock => 9
  | SU_Return => 8
  | Fault | Panicking | Exited => 0
  end.

Definition weight (t : Thread) : nat :=
  14 * length (calls t) + remaining (pc t).

Definition total (s : State) : nat := sum_list (weight <$> threads s).

(** A thread that has nothing left to do, or has ended. *)
Definition finished (t : Thread) : bool :=
  match pc t with
  | Idle => match calls t with [] => true | _ => false end
  | Fault | Panicking | Exited => true
  | _ => false
  end.

Section Invariant.

Context {ext : Collaborators}.

(** What holds of thread [j] in state [s]. *)
Record thread_inv (s : State) (j : nat) (t : Thread) : Prop := {
  ti_writer : holdsW (pc t) = true <-> writer (st_initMu s) = Some j;
  ti_reader : holdsR (pc t) = true <-> j ∈ readers (st_initMu s);
  ti_once : inBody (pc t) = true <-> st_initOnce s = OnceRunning j;
  ti_prebuilt : beforeBuild (pc t) = true -> defaultBuilt s = 0%nat;
  ti_handle : needsHandle (pc t) = true -> is_Some (st_sugar s);
  ti_nil : pc t = EI_Logger -> st_sugar s = None /\ st_logger s = None;
  ti_ei_sugar : pc t = EI_Sugar ->
    st_sugar s = None /\ st_logger s = Some default_logger;
  ti_su_sugar : pc t = SU_Sugar ->
    exists config, head (calls t) = Some (CallSetup config) /\
                   st_logger s = Some (setup_logger config);
  ti_setup_call : inSetup (pc t) = true ->
    exists config, head (calls t) = Some (CallSetup config);
  ti_leveled_call : inLeveled (pc t) = true ->
    is_Some (head (calls t) ≫= forwarded);
  ti_built : pc t = EI_Sugar -> defaultBuilt s = 1%nat;
  ti_nofault : pc t <> Fault;
  ti_returned : Forall (fun e => e = None) (returned t)
}.

Record Inv (s : State) : Prop := {
  inv_threads : forall j t, threads s !! j = Some t -> thread_inv s j t;
  inv_writer_live : forall j, writer (st_initMu s) = Some j ->
    is_Some (threads s !! j);
  inv_readers_live : forall j, j ∈ readers (st_initMu s) ->
    is_Some (threads s !! j);
  inv_excl : is_Some (writer (st_initMu s)) -> readers (st_initMu s) = ∅;
  inv_once_live : forall j, st_initOnce s = OnceRunning j ->
    is_Some (threads s !! j);
  inv_runs : bodyRuns s = match st_initOnce s with OnceFresh => 0%nat | _ => 1%nat end;
  inv_built : (defaultBuilt s <= bodyRuns s)%nat;
  inv_built_installed : DefaultInstall ∈ installs s -> defaultBuilt s = 1%nat;
  inv_done : st_initOnce s = OnceDone -> is_Some (st_sugar s);
  inv_sugar : st_sugar s = installed <$> head (installs s);
  inv_default_first : forall pre post,
    installs s = (pre ++ DefaultInstall :: post)%list -> post = [];
  inv_logger : is_Some (st_sugar s) -> is_Some (st_logger s);
  inv_assigning : is_Some (st_logger s) -> st_sugar s = None ->
    exists j t, threads s !! j = Some t /\ assigning (pc t) = true;
  inv_output : forall e, e ∈ output s ->
    exists ins, ins ∈ installs s /\ via e = installed ins
}.

(** No thread calls, or is inside, [Setup], and [Setup] has installed
    nothing. *)
Record NoSetup (s : State) : Prop := {
  ns_calls : forall j t, threads s !! j = Some t ->
    forallb (fun c => negb (isSetup c)) (calls t) = true;
  ns_pc : forall j t, threads s !! j = Some t -> inSetup (pc t) = false;
  ns_installs : forall ins, ins ∈ installs s -> ins = DefaultInstall
}.

End Invariant.

(** ** What the threads wrote *)


Definition isSetupInstall (ins : Install) : bool :=
  match ins with SetupInstall _ => true | DefaultInstall => false end.

(** The entries thread [j] has written, newest first. *)
Definition written_by (j : nat) (s : State) : list Zap.Entry :=
  entry <$> filter (λ e, by_thread e = j) (output s).

Arguments written_by : simpl never.

(** Where a thread is after its call ended it: the call is still the first
    of [calls]. *)
Definition ended (p : PC) : bool :=
  match p with Panicking | Exited => true | _ => false end.

(** The entry a call forwards, and the entries a sequence of calls
    forwards, in order. *)
Definition entry_of (c : Call) : option Zap.Entry :=
  (λ '(lvl, msg), {| Zap.EntryLevel := lvl; Zap.EntryMessage := msg |})
    <$> forwarded c.

Definition forwarded_entries (cs : list Call) : list Zap.Entry :=
  omap entry_of cs.

(** The calls a thread has made, given those it has returned from: these,
    and the call that ended it. *)
Definition made (t : Thread) (past : list Call) : list Call :=
  if ended (pc t)
  then match calls t with c :: _ => (past ++ [c])%list | [] => past end
  else past.

(** Every thread has its program's calls left to make, and what it has
    written is, in order, among the entries of the calls it made; every
    entry was let through by the handle it was written through. *)
Record Traced (programs : list (list Call)) (s : State) : Prop := {
  tr_calls : forall j t, threads s !! j = Some t ->
    exists past,
      programs !! j = Some (past ++ calls t)%list /\
      rev (written_by j s) `sublist_of` forwarded_entries (made t past);
  tr_output : forall e, e ∈ output s ->
    Zap.Enabled (Zap.enab (Zap.core (Zap.base (via e))))
                (Zap.EntryLevel (entry e)) = true
}.

(** Nothing is filtered: what a thread has written is exactly what the
    calls it made forward. *)
Definition Exact (programs : list (list Call)) (s : State) : Prop :=
  forall j t, threads s !! j = Some t ->
    exists past,
      programs !! j = Some (past ++ calls t)%list /\
      rev (written_by j s) = forwarded_entries (made t past).

(** A thread at a call of [initMu.Lock]. *)
Definition waitsW (p : PC) : bool :=
  match p with EI_Lock | SU_Lock => true | _ => false end.

Definition writerWaiting (s : State) : bool :=
  existsb (fun t => waitsW (pc t)) (threads s).

Section WriterPreference.

Context {ext : Collaborators}.

(** One statement of thread [i] when a thread waiting in [Lock] keeps new
    readers out, as [sync.RWMutex] does: [RLock] is then not admitted at
    all while any thread is at a [Lock]. *)
Definition tstep_wp (i : nat) (s : State) : option State :=
  t ← threads s !! i;
  match pc t with
  | EI_RLock => if writerWaiting s then None else tstep i s
  | _ => tstep i s
  end.

Fixpoint run_wp (schedule : list nat) (s : State) : option State :=
  match schedule with
  | [] => Some s
  | i :: rest => tstep_wp i s ≫= run_wp rest
  end.

End WriterPreference.



(** ** The earlier version of the package

    The source file holds a second copy of the package, from before
    [ensureInitialized], [initOnce] and [initMu] were added.  Its field
    encoders are those above, line by line, and so are the statements of
    its [Setup] up to the construction of the core ([Setup_core]); the two
    assignments follow with no lock around them, and the leveled logging
    functions forward to [sugar] at once. *)

Module Legacy.

(** The package-level variables [logger] and [sugar]. *)
Record Globals := {
  logger : option Zap.Logger;
  sugar : option Zap.SugaredLogger
}.

Section LegacyPackage.

Context {ext : Collaborators}.

Definition Setup (config : option Config) (g : Globals) : Globals * error :=
  let core := Setup_core config in
  let g := {| logger := Some (Zap.New core [Zap.AddCaller; Zap.AddCallerSkip 1]);
              sugar := sugar g |} in
  let g := {| logger := logger g; sugar := Zap.Sugar <$> logger g |} in
  (g, None).

Definition Unsetup (g : Globals) : Globals * error := (g, None).

(** The call [sugar.M(...)] on the package variable. *)
Definition forward (g : Globals) (lvl : Zap.Level) (msg : Zap.Message) : Result :=
  match sugar g with
  | Some s => let '(e, a) := Zap.log s lvl msg in Logged s e a
  | None => NilDereference
  end.

Definition Debug (args : list Zap.Value) (g : Globals) : Globals * Result :=
  (g, forward g Zap.DebugLevel (Zap.Sprint args)).

Definition Info (args : list Zap.Value) (g : Globals) : Globals * Result :=
  (g, forward g Zap.InfoLevel (Zap.Sprint args)).

Definition Warn (args : list Zap.Value) (g : Globals) : Globals * Result :=
  (g, forward g Zap.WarnLevel (Zap.Sprint args)).

Definition Error (args : list Zap.Value) (g : Globals) : Globals * Result :=
  (g, forward g Zap.ErrorLevel (Zap.Sprint args)).

Definition Fatal (args : list Zap.Value) (g : Globals) : Globals * Result :=
  (g, forward g Zap.FatalLevel (Zap.Sprint args)).

Definition Panic (args : list Zap.Value) (g : Globals) : Globals * Result :=
  (g, forward g Zap.PanicLevel (Zap.Sprint args)).

Definition Debugf (message : string) (args : list Zap.Value) (g : Globals) : Globals * Result :=
  (g, forward g Zap.DebugLevel (Zap.Sprintf message args)).

Definition Infof (message : string) (args : list Zap.Value) (g : Globals) : Globals * Result :=
  (g, forward g Zap.InfoLevel (Zap.Sprintf message args)).

Definition Warnf (message : string) (args : list Zap.Value) (g : Globals) : Globals * Result :=
  (g, forward g Zap.WarnLevel (Zap.Sprintf message args)).

Definition Errorf (message : string) (args : list Zap.Value) (g : Globals) : Globals * Result :=
  (g, forward g Zap.ErrorLevel (Zap.Sprintf message args)).

Definition Fatalf (message : string) (args : list Zap.Value) (g : Globals) : Globals * Result :=
  (g, forward g Zap.FatalLevel (Zap.Sprintf message args)).

Definition Panicf (message : string) (args : list Zap.Value) (g : Globals) : Globals * Result :=
  (g, forward g Zap.PanicLevel (Zap.Sprintf message args)).

(** One call of an exported function. *)
Definition call (c : Call) (g : Globals) : Globals * Outcome :=
  match c with
  | CallSetup config => let '(g, e) := Setup config g in (g, Err e)
  | CallUnsetup => let '(g, e) := Unsetup g in (g, Err e)
  | CallDebug args => let '(g, r) := Debug args g in (g, Log r)
  | CallInfo args => let '(g, r) := Info args g in (g, Log r)
  | CallWarn args => let '(g, r) := Warn args g in (g, Log r)
  | CallError args => let '(g, r) := Error args g in (g, Log r)
  | CallFatal args => let '(g, r) := Fatal args g in (g, Log r)
  | CallPanic args => let '(g, r) := Panic args g in (g, Log r)
  | CallDebugf m args => let '(g, r) := Debugf m args g in (g, Log r)
  | CallInfof m args => let '(g, r) := Infof m args g in (g, Log r)
  | CallWarnf m args => let '(g, r) := Warnf m args g in (g, Log r)
  | CallErrorf m args => let '(g, r) := Errorf m args g in (g, Log r)
  | CallFatalf m args => let '(g, r) := Fatalf m args g in (g, Log r)
  | CallPanicf m args => let '(g, r) := Panicf m args g in (g, Log r)
  end.

End LegacyPackage.

End Legacy.

(** The variables the two versions share. *)
Definition shared (g : Globals) : Legacy.Globals :=
  {| Legacy.logger := logger g; Legacy.sugar := sugar g |}.

(** ** More statement vocabulary *)

(** The threshold a level string stands for: that of the first of the level
    names it equals up to the case of ASCII letters, debug when there is
    none. *)
Fixpoint lookup_fold (s : string) (table : list (string * Zap.Level)) : Zap.Level :=
  match table with
  | [] => Zap.DebugLevel
  | (name, lvl) :: rest =>
      if GoStrings.sameFold s name then lvl else lookup_fold s rest
  end.

(** What the text of the time encoder is made of, most significant first. *)
Definition stamp (t : GoTime.Time) : list Z :=
  [GoTime.Year t; GoTime.Month t; GoTime.Day t;
   GoTime.Hour t; GoTime.Minute t; GoTime.Second t;
   GoTime.Nanosecond t / 1000000].

Fixpoint lex_compare (a b : list Z) : comparison :=
  match a, b with
  | [], [] => Eq
  | [], _ :: _ => Lt
  | _ :: _, [] => Gt
  | x :: a', y :: b' =>
      match x ?= y with
      | Eq => lex_compare a' b'
      | c => c
      end
  end.

(** The levels the level encoder abbreviates to a letter. *)
Definition abbreviated (l : Zap.Level) : bool :=
  existsb (Z.eqb l)
    [Zap.DebugLevel; Zap.InfoLevel; Zap.WarnLevel; Zap.ErrorLevel;
     Zap.FatalLevel; Zap.PanicLevel].

(** The values of a [zapcore.Level], an [int8]. *)
Definition int8 (l : Z) : Prop := -128 <= l <= 127.

Definition int8s : list Z := (fun n => Z.of_nat n - 128) <$> seq 0 256.

(** ** More runs of the model *)

(** A first logging call that builds the default logger and stands at its
    forwarding call, while [Setup] on another thread has assigned its
    handle and still holds the lock. *)
Definition overlap : list (list Call) :=
  [[CallInfo [Zap.VString "request served"]];
   [CallSetup (Some {| Level := "error"; Path := "/var/log/app.log";
                       Console := false; Async := false |})]].

Definition overlap_schedule : list nat :=
  [0; 0; 0; 0; 0; 0; 0; 0; 0; 0; 0; 1; 1; 1; 1]%nat.

Definition overlap_state : State :=
  default (init overlap)
          (run (ext := sample_collaborators) overlap_schedule (init overlap)).

(** The first thread of [race] from its re-check to the end of its call. *)
Definition race_end_schedule : list nat := [0; 0; 0; 0]%nat.

Definition race_end_state : State :=
  default race_state
          (run (ext := sample_collaborators) race_end_schedule race_state).

(** * Properties *)

(** ** Strings *)

Lemma append_empty_l (s : string) : "" +:+ s = s.
Proof. reflexivity. Qed.

Lemma append_cons_l c (s t : string) : String c s +:+ t = String c (s +:+ t).
Proof. reflexivity. Qed.

Lemma Index_sep_cons c s :
  GoStrings.Index (String c s) "/" =
  if Ascii.eqb c "/" then 0
  else let r := GoStrings.Index s "/" in if r =? -1 then -1 else r + 1.
Proof.
  cbn [GoStrings.Index String.prefix].
  destruct (ascii_dec "/" c) as [<- | Hne].
  - destruct s; reflexivity.
  - destruct (Ascii.eqb_spec c "/") as [-> | _]; [contradiction | reflexivity].
Qed.

Lemma Index_sep_range s :
  -1 <= GoStrings.Index s "/" < GoStrings.len s \/
  (s = "" /\ GoStrings.Index s "/" = -1).
Proof.
  induction s as [| c s IH].
  - right. split; reflexivity.
  - left. rewrite Index_sep_cons. unfold GoStrings.len in *. cbn [String.length].
    destruct (Ascii.eqb c "/"); [lia |].
    cbv zeta. destruct IH as [IH | [-> IH]].
    + destruct (Z.eqb_spec (GoStrings.Index s "/") (-1)); lia.
    + cbn. lia.
Qed.

Lemma Index_sep_absent s :
  GoStrings.hasByte "/" s = false -> GoStrings.Index s "/" = -1.
Proof.
  induction s as [| c s IH]; [reflexivity |].
  cbn [GoStrings.hasByte]. intros [Hc Hs]%orb_false_iff.
  rewrite Index_sep_cons, Hc. cbv zeta. rewrite (IH Hs). reflexivity.
Qed.

Lemma Index_sep_first pre rest :
  GoStrings.hasByte "/" pre = false ->
  GoStrings.Index (pre +:+ String "/" rest) "/" = GoStrings.len pre.
Proof.
  induction pre as [| c pre IH]; intros H.
  - rewrite append_empty_l, Index_sep_cons. reflexivity.
  - cbn [GoStrings.hasByte] in H. apply orb_false_iff in H as [Hc Hs].
    rewrite append_cons_l, Index_sep_cons, Hc. cbv zeta.
    rewrite (IH Hs). unfold GoStrings.len. cbn [String.length].
    destruct (Z.eqb_spec (Z.of_nat (String.length pre)) (-1)); lia.
Qed.

Lemma drop_past_sep pre rest :
  GoStrings.slice_from (pre +:+ String "/" rest) (GoStrings.len pre + 1) = rest.
Proof.
  unfold GoStrings.slice_from, GoStrings.len.
  replace (Z.to_nat (Z.of_nat (String.length pre) + 1)) with (S (String.length pre)) by lia.
  induction pre as [| c pre IH]; [reflexivity |].
  rewrite append_cons_l. exact IH.
Qed.

Lemma sameFold_lower s t :
  GoStrings.sameFold s t = true ->
  GoStrings.allASCII s = true /\
  GoStrings.mapBytes GoStrings.lowerByte s = GoStrings.mapBytes GoStrings.lowerByte t.
Proof.
  revert t. induction s as [| c s IH]; intros [| d t]; cbn; try discriminate.
  - auto.
  - intros H. repeat (apply andb_true_iff in H as [H ?]).
    destruct (IH t) as [Ha Hm]; [assumption |].
    apply Ascii.eqb_eq in H. split.
    + apply andb_true_iff. split; assumption.
    + congruence.
Qed.

(** ** Field encoders *)

(** C4.  The caller encoder appends the trimmed path without everything up
    to and including its first ['/']; a path with no ['/'] is appended as it
    is.  So ["pkgname/sub/file.go:42"] gives ["sub/file.go:42"], and
    ["file.go:42"] is unchanged. *)
Theorem EncodeCaller_drops_first_segment (caller : Zap.EntryCaller) (enc : Zap.PrimitiveArrayEncoder) :
  (forall pre rest,
      GoStrings.hasByte "/" pre = false ->
      Zap.TrimmedPath caller = pre +:+ String "/" rest ->
      EncodeCaller caller enc = (enc ++ [rest])%list) /\
  (GoStrings.hasByte "/" (Zap.TrimmedPath caller) = false ->
   EncodeCaller caller enc = (enc ++ [Zap.TrimmedPath caller])%list) /\
  EncodeCaller {| Zap.TrimmedPath := "pkgname/sub/file.go:42" |} enc
    = (enc ++ ["sub/file.go:42"])%list /\
  EncodeCaller {| Zap.TrimmedPath := "file.go:42" |} enc
    = (enc ++ ["file.go:42"])%list.
Proof.
  repeat split.
  - intros pre rest Hpre Hpath. unfold EncodeCaller, Zap.AppendString.
    rewrite Hpath, (Index_sep_first _ _ Hpre), drop_past_sep.
    destruct (Z.eqb_spec (GoStrings.len pre) (-1)) as [E | _]; [| reflexivity].
    unfold GoStrings.len in E. lia.
  - intros Hnone. unfold EncodeCaller, Zap.AppendString.
    rewrite (Index_sep_absent _ Hnone). reflexivity.
Qed.

Section EncoderProperties.

Context {ext : Collaborators}.

(** C5.  The level encoder appends ["D"], ["I"], ["W"], ["E"], ["F"],
    ["P"] for debug, info, warn, error, fatal and panic, and the capital
    name zapcore gives to any other level; it appends exactly one string
    for every level. *)
Theorem EncodeLevel_letters (enc : Zap.PrimitiveArrayEncoder) :
  EncodeLevel Zap.DebugLevel enc = (enc ++ ["D"])%list /\
  EncodeLevel Zap.InfoLevel enc = (enc ++ ["I"])%list /\
  EncodeLevel Zap.WarnLevel enc = (enc ++ ["W"])%list /\
  EncodeLevel Zap.ErrorLevel enc = (enc ++ ["E"])%list /\
  EncodeLevel Zap.FatalLevel enc = (enc ++ ["F"])%list /\
  EncodeLevel Zap.PanicLevel enc = (enc ++ ["P"])%list /\
  (forall l : Zap.Level,
      l <> Zap.DebugLevel -> l <> Zap.InfoLevel -> l <> Zap.WarnLevel ->
      l <> Zap.ErrorLevel -> l <> Zap.FatalLevel -> l <> Zap.PanicLevel ->
      EncodeLevel l enc = (enc ++ [CapitalString l])%list) /\
  (forall l : Zap.Level, exists s, EncodeLevel l enc = (enc ++ [s])%list).
Proof.
  repeat split; try reflexivity.
  - intros l H1 H2 H3 H4 H5 H6. unfold EncodeLevel.
    repeat match goal with
           | |- context [?a =? ?b] => destruct (Z.eqb_spec a b); [contradiction |]
           end.
    reflexivity.
  - intros l. unfold EncodeLevel, Zap.AppendString.
    repeat match goal with
           | |- context [?a =? ?b] => destruct (Z.eqb_spec a b); [eexists; reflexivity |]
           end.
    eexists; reflexivity.
Qed.

End EncoderProperties.

(** ** Decimal numerals *)

Lemma append_assoc_s (a b c : string) : (a +:+ b) +:+ c = a +:+ (b +:+ c).
Proof.
  induction a as [| x a IH]; [reflexivity |].
  rewrite !append_cons_l, IH. reflexivity.
Qed.

Lemma append_empty_r (a : string) : a +:+ "" = a.
Proof.
  induction a as [| x a IH]; [reflexivity |].
  rewrite append_cons_l, IH. reflexivity.
Qed.

Lemma length_append_s (a b : string) :
  String.length (a +:+ b) = (String.length a + String.length b)%nat.
Proof.
  induction a as [| x a IH]; [reflexivity |].
  rewrite append_cons_l. cbn [String.length]. rewrite IH. reflexivity.
Qed.

Lemma length_decimal k n : String.length (decimal k n) = k.
Proof.
  revert n. induction k as [| k IH]; intros n; [reflexivity |].
  cbn [decimal]. rewrite length_append_s, IH. cbn. lia.
Qed.

Lemma length_zeros m : String.length (GoTime.zeros m) = m.
Proof. induction m as [| m IH]; [reflexivity |]. cbn. rewrite IH. reflexivity. Qed.

Lemma zeros_snoc j : GoTime.zeros j +:+ String "0" "" = String "0" (GoTime.zeros j).
Proof.
  induction j as [| j IH]; [reflexivity |].
  cbn [GoTime.zeros]. rewrite append_cons_l, IH. reflexivity.
Qed.

Lemma decimal_zero j : decimal j 0 = GoTime.zeros j.
Proof.
  induction j as [| j IH]; [reflexivity |].
  cbn [decimal]. change (0 / 10) with 0. change (GoTime.digit (0 mod 10)) with "0"%char.
  rewrite IH. apply zeros_snoc.
Qed.

Lemma decimal_small k n : 0 <= n < 10 -> decimal (S k) n = GoTime.zeros k +:+ decimal 1 n.
Proof.
  intros Hn. assert (E : n / 10 = 0) by (apply Z.div_small; lia).
  cbn [decimal]. rewrite E, decimal_zero. reflexivity.
Qed.

(** Leading zeros: a numeral that fits [n] digits, written with [m] more. *)
Lemma decimal_pad m n x :
  (1 <= n)%nat -> 0 <= x < 10 ^ Z.of_nat n ->
  decimal (m + n) x = GoTime.zeros m +:+ decimal n x.
Proof.
  revert x. induction n as [| n IH]; intros x Hn Hx; [lia |].
  destruct n as [| n].
  - replace (m + 1)%nat with (S m) by lia. apply decimal_small.
    change (10 ^ Z.of_nat 1) with 10 in Hx. exact Hx.
  - replace (m + S (S n))%nat with (S (m + S n)) by lia.
    cbn [decimal]. fold (decimal (S n) (x / 10)).
    change (decimal n (x / 10 / 10) +:+ String (GoTime.digit (x / 10 mod 10)) "")
      with (decimal (S n) (x / 10)).
    rewrite IH.
    + rewrite append_assoc_s. reflexivity.
    + lia.
    + split; [apply Z.div_pos; lia |].
      apply Z.div_lt_upper_bound; [lia |].
      replace (Z.of_nat (S (S n))) with (Z.succ (Z.of_nat (S n))) in Hx by lia.
      rewrite Z.pow_succ_r in Hx by lia. lia.
Qed.

Lemma digits_S fuel u acc :
  GoTime.digits (S fuel) u acc =
  if u / 10 =? 0 then String (GoTime.digit (u mod 10)) acc
  else GoTime.digits fuel (u / 10) (String (GoTime.digit (u mod 10)) acc).
Proof. reflexivity. Qed.

(** [digits] writes the shortest numeral of [u] in front of [acc]. *)
Lemma digits_decimal fuel u acc :
  0 <= u < 10 ^ Z.of_nat (S fuel) ->
  exists n, (1 <= n)%nat /\
            GoTime.digits (S fuel) u acc = decimal n u +:+ acc /\
            u < 10 ^ Z.of_nat n /\
            (n = 1%nat \/ 10 ^ Z.of_nat (n - 1) <= u).
Proof.
  revert u acc. induction fuel as [| fuel IH]; intros u acc Hu.
  - exists 1%nat. change (10 ^ Z.of_nat 1) with 10 in Hu.
    assert (E : u / 10 = 0) by (apply Z.div_small; lia).
    rewrite digits_S, E. cbn [Z.eqb decimal].
    repeat split; auto. change (10 ^ Z.of_nat 1) with 10. lia.
  - rewrite digits_S.
    destruct (Z.eqb_spec (u / 10) 0) as [E | NE].
    + exists 1%nat. cbn [decimal].
      repeat split; auto. change (10 ^ Z.of_nat 1) with 10.
      assert (u = 10 * (u / 10) + u mod 10) by (apply Z.div_mod; lia).
      assert (0 <= u mod 10 < 10) by (apply Z.mod_pos_bound; lia). lia.
    + assert (Hq : 0 <= u / 10 < 10 ^ Z.of_nat (S fuel)).
      { split; [apply Z.div_pos; lia |].
        apply Z.div_lt_upper_bound; [lia |].
        replace (Z.of_nat (S (S fuel))) with (Z.succ (Z.of_nat (S fuel))) in Hu by lia.
        rewrite Z.pow_succ_r in Hu by lia. lia. }
      destruct (IH (u / 10) (String (GoTime.digit (u mod 10)) acc) Hq)
        as (n & Hn & Hd & Hlt & Hmin).
      exists (S n). split; [lia |]. split; [| split].
      * rewrite Hd. cbn [decimal]. rewrite append_assoc_s. reflexivity.
      * replace (Z.of_nat (S n)) with (Z.succ (Z.of_nat n)) by lia.
        rewrite Z.pow_succ_r by lia.
        assert (u = 10 * (u / 10) + u mod 10) by (apply Z.div_mod; lia).
        assert (0 <= u mod 10 < 10) by (apply Z.mod_pos_bound; lia). lia.
      * right. replace (S n - 1)%nat with n by lia.
        assert (Hge : 10 ^ Z.of_nat (n - 1) <= u / 10).
        { destruct Hmin as [-> | Hmin]; [| exact Hmin].
          change (10 ^ Z.of_nat (1 - 1)) with 1. lia. }
        replace (Z.of_nat n) with (Z.succ (Z.of_nat (n - 1))) by lia.
        rewrite Z.pow_succ_r by lia.
        assert (u = 10 * (u / 10) + u mod 10) by (apply Z.div_mod; lia).
        assert (0 <= u mod 10 < 10) by (apply Z.mod_pos_bound; lia). lia.
Qed.

Lemma itoa_decimal u :
  0 <= u ->
  exists n, (1 <= n)%nat /\ GoTime.itoa u = decimal n u /\
            u < 10 ^ Z.of_nat n /\ (n = 1%nat \/ 10 ^ Z.of_nat (n - 1) <= u).
Proof.
  intros Hu. unfold GoTime.itoa.
  destruct (digits_decimal (Z.to_nat (Z.log2 u)) u "") as (n & H1 & H2 & H3 & H4).
  - split; [exact Hu |].
    destruct (Z.eq_dec u 0) as [-> | Hnz]; [reflexivity |].
    pose proof (Z.log2_spec u ltac:(lia)) as [_ Hlt].
    pose proof (Z.log2_nonneg u).
    replace (Z.of_nat (S (Z.to_nat (Z.log2 u)))) with (Z.succ (Z.log2 u)) by lia.
    eapply Z.lt_le_trans; [exact Hlt |].
    apply Z.pow_le_mono_l. lia.
  - exists n. rewrite append_empty_r in H2. auto.
Qed.

(** [appendInt] of a number that fits the width writes exactly [k] digits. *)
Lemma appendInt_decimal b x k :
  (1 <= k)%nat -> 0 <= x < 10 ^ Z.of_nat k ->
  GoTime.appendInt b x (Z.of_nat k) = b +:+ decimal k x.
Proof.
  intros Hk Hx. unfold GoTime.appendInt.
  rewrite Z.abs_eq by lia.
  destruct (itoa_decimal x ltac:(lia)) as (n & Hn & -> & Hlt & Hmin).
  destruct (Z.ltb_spec x 0) as [? | _]; [lia |].
  rewrite append_empty_l. f_equal.
  unfold GoStrings.len. rewrite length_decimal.
  assert (Hnk : (n <= k)%nat).
  { destruct Hmin as [-> | Hmin]; [exact Hk |].
    destruct (Nat.le_gt_cases n k) as [? | Hgt]; [assumption |].
    assert (10 ^ Z.of_nat k <= 10 ^ Z.of_nat (n - 1))
      by (apply Z.pow_le_mono_r; lia).
    lia. }
  replace (Z.to_nat (Z.of_nat k - Z.of_nat n)) with (k - n)%nat by lia.
  replace k with ((k - n) + n)%nat at 2 by lia.
  symmetry. apply decimal_pad; [exact Hn | lia].
Qed.

Lemma take_append_exact (a b : string) :
  GoTime.take (String.length a) (a +:+ b) = a.
Proof.
  induction a as [| x a IH]; [destruct b; reflexivity |].
  rewrite append_cons_l. cbn [String.length GoTime.take]. rewrite IH. reflexivity.
Qed.

(** The first [k] of [k + m] digits are the numeral of the quotient. *)
Lemma take_decimal k m x :
  GoTime.take k (decimal (k + m) x) = decimal k (x / 10 ^ Z.of_nat m).
Proof.
  revert x. induction m as [| m IH]; intros x.
  - replace (k + 0)%nat with k by lia. change (10 ^ Z.of_nat 0) with 1.
    rewrite Z.div_1_r.
    rewrite <- (length_decimal k x) at 1.
    rewrite <- (append_empty_r (decimal k x)) at 2.
    apply take_append_exact.
  - replace (k + S m)%nat with (S (k + m)) by lia. cbn [decimal].
    transitivity (GoTime.take k (decimal (k + m) (x / 10))).
    + generalize (String (GoTime.digit (x mod 10)) "") as tl. intros tl.
      assert (Hlen : (k <= String.length (decimal (k + m) (x / 10)))%nat)
        by (rewrite length_decimal; lia).
      revert Hlen. generalize (decimal (k + m) (x / 10)) as d.
      clear. induction k as [| k IHk]; intros d Hlen.
      * destruct d; destruct tl; reflexivity.
      * destruct d as [| c d]; [cbn in Hlen; lia |].
        rewrite append_cons_l. cbn [GoTime.take]. f_equal.
        apply IHk. cbn in Hlen. lia.
    + rewrite IH. f_equal.
      replace (Z.of_nat (S m)) with (Z.succ (Z.of_nat m)) by lia.
      rewrite Z.pow_succ_r by lia.
      rewrite Z.div_div by lia. reflexivity.
Qed.

(** ** The time encoder *)

Lemma Format_layout_fields t :
  GoTime.Format t "20060102 15:04:05.000" =
  GoTime.appendNano
    (GoTime.appendInt
       (GoTime.appendInt
          (GoTime.appendInt
             (GoTime.appendInt
                (GoTime.appendInt
                   (GoTime.appendInt "" (GoTime.Year t) 4)
                   (GoTime.Month t) 2)
                (GoTime.Day t) 2 +:+ " ")
             (GoTime.Hour t) 2 +:+ ":")
          (GoTime.Minute t) 2 +:+ ":")
       (GoTime.Second t) 2)
    (GoTime.Nanosecond t) false 3 ".".
Proof.
  cbv -[GoTime.appendInt GoTime.appendNano String.append GoTime.Year GoTime.Month
        GoTime.Day GoTime.Hour GoTime.Minute GoTime.Second GoTime.Nanosecond].
  change ("" +:+ "") with "". rewrite !append_empty_r. reflexivity.
Qed.

Lemma appendNano_millis b ns :
  0 <= ns <= 999999999 ->
  GoTime.appendNano b ns false 3 "." = b +:+ "." +:+ decimal 3 (ns / 1000000).
Proof.
  intros Hns. unfold GoTime.appendNano. cbn [andb].
  change 9 with (Z.of_nat 9).
  rewrite appendInt_decimal by (cbn; lia).
  rewrite append_empty_l. change 9%nat with (3 + 6)%nat.
  rewrite take_decimal. reflexivity.
Qed.

Lemma isDigit_digit n : GoTime.isDigit (GoTime.digit (n mod 10)) = true.
Proof.
  assert (H : 0 <= n mod 10 < 10) by (apply Z.mod_pos_bound; lia).
  assert (C : n mod 10 = 0 \/ n mod 10 = 1 \/ n mod 10 = 2 \/ n mod 10 = 3 \/
              n mod 10 = 4 \/ n mod 10 = 5 \/ n mod 10 = 6 \/ n mod 10 = 7 \/
              n mod 10 = 8 \/ n mod 10 = 9) by lia.
  repeat destruct C as [-> | C]; try rewrite C; reflexivity.
Qed.

(** C6, as amended.  For every time whose year is between 0 and 9999, the
    time encoder appends the year in four digits, the month and the day in
    two, a space, hour, minute and second in two digits each separated by
    colons, a dot and the milliseconds (the nanoseconds divided by 10^6,
    rounded down) in three digits: 21 bytes of the shape
    [dddddddd dd:dd:dd.ddd], with no time zone.  2024-03-05 07:08:09.123 is
    encoded as ["20240305 07:08:09.123"]. *)
Theorem EncodeTime_pattern (t : GoTime.Time) (enc : Zap.PrimitiveArrayEncoder) :
  GoTime.valid t -> 0 <= GoTime.Year t <= 9999 ->
  EncodeTime t enc = (enc ++ [time_text t])%list /\
  has_shape "dddddddd dd:dd:dd.ddd" (time_text t) = true /\
  EncodeTime (GoTime.mkTime 2024 3 5 65 7 8 9 123000000) enc
    = (enc ++ ["20240305 07:08:09.123"])%list.
Proof.
  intros (Hmo & Hd & _ & Hh & Hmi & Hs & Hns) Hy.
  split; [| split].
  - unfold EncodeTime, Zap.AppendString. f_equal. f_equal.
    rewrite Format_layout_fields, appendNano_millis by exact Hns.
    change 4 with (Z.of_nat 4). change 2 with (Z.of_nat 2).
    rewrite !appendInt_decimal by (first [lia | cbn; lia]).
    unfold time_text. rewrite append_empty_l, !append_assoc_s. reflexivity.
  - unfold time_text.
    cbv [decimal String.append has_shape Ascii.eqb Bool.eqb].
    rewrite !isDigit_digit. reflexivity.
  - reflexivity.
Qed.

(** ** Setup and Unsetup *)

Section SetupProperties.

Context {ext : Collaborators}.

Lemma Setup_installs config g :
  Setup config g =
  ({| logger := Some (setup_logger config);
      sugar := Some (Zap.Sugar (setup_logger config));
      initOnce := initOnce g |}, None).
Proof. reflexivity. Qed.

Lemma setup_logger_core config : Zap.core (setup_logger config) = Setup_core config.
Proof. reflexivity. Qed.

Lemma ToLower_fold s name :
  GoStrings.sameFold s name = true ->
  GoStrings.mapBytes GoStrings.lowerByte name = name ->
  GoStrings.ToLower unicodeLower s = name.
Proof.
  intros [Ha Hm]%sameFold_lower Hname. unfold GoStrings.ToLower.
  rewrite Ha, Hm. exact Hname.
Qed.

(** The switch of [Setup] on the lowered level string. *)
Lemma Setup_core_named c name lvl :
  Level c <> "" -> In (name, lvl) level_names ->
  GoStrings.ToLower unicodeLower (Level c) = name ->
  Zap.enab (Setup_core (Some c)) = lvl.
Proof.
  intros Hne Hin Hlow. unfold Setup_core. cbn [Zap.enab].
  destruct (String.eqb_spec (Level c) "") as [E | _]; [contradiction |].
  cbn [negb]. rewrite Hlow. cbn in Hin.
  repeat destruct Hin as [Hin | Hin]; try contradiction;
    injection Hin as <- <-; reflexivity.
Qed.

Lemma Setup_core_unnamed c :
  (forall name lvl, In (name, lvl) level_names ->
                    GoStrings.ToLower unicodeLower (Level c) <> name) ->
  Zap.enab (Setup_core (Some c)) = Zap.DebugLevel.
Proof.
  intros Hno. unfold Setup_core. cbn [Zap.enab].
  destruct (negb (String.eqb (Level c) "")); [| reflexivity].
  repeat match goal with
         | |- context [String.eqb ?l ?n] =>
             destruct (String.eqb_spec l n) as [E | _];
             [exfalso; eapply Hno; [| exact E]; cbn; tauto |]
         end.
  reflexivity.
Qed.

(** C3.  [Setup] sets the threshold to debug when there is no
    configuration or its level string is empty; a level string that is
    debug, info, warn, warning, error, fatal or panic in any mix of upper
    and lower case sets the corresponding threshold; every level string
    whose lower-case form is none of these leaves the threshold at debug;
    and [Setup] returns no error in all these cases. *)
Theorem Setup_threshold (config : option Config) (g : Globals) :
  (config = None -> threshold (Setup config g).1 = Some Zap.DebugLevel) /\
  (forall c, config = Some c -> Level c = "" ->
             threshold (Setup config g).1 = Some Zap.DebugLevel) /\
  (forall c name lvl,
      config = Some c -> In (name, lvl) level_names ->
      GoStrings.sameFold (Level c) name = true ->
      threshold (Setup config g).1 = Some lvl) /\
  (forall c name lvl,
      config = Some c -> Level c <> "" -> In (name, lvl) level_names ->
      GoStrings.ToLower unicodeLower (Level c) = name ->
      threshold (Setup config g).1 = Some lvl) /\
  (forall c,
      config = Some c ->
      (forall name lvl, In (name, lvl) level_names ->
                        GoStrings.ToLower unicodeLower (Level c) <> name) ->
      threshold (Setup config g).1 = Some Zap.DebugLevel) /\
  (Setup config g).2 = None.
Proof.
  rewrite Setup_installs. unfold threshold. cbn [fst snd logger fmap option_fmap option_map].
  rewrite setup_logger_core.
  split; [| split; [| split; [| split; [| split]]]].
  - intros ->. reflexivity.
  - intros c -> E. unfold Setup_core. cbn [Zap.enab]. rewrite E. reflexivity.
  - intros c name lvl -> Hin Hfold. f_equal.
    apply (Setup_core_named c name lvl); [| exact Hin |].
    + intros E. rewrite E in Hfold. cbn in Hin.
      repeat destruct Hin as [Hin | Hin]; try contradiction;
        injection Hin as <- <-; discriminate Hfold.
    + apply ToLower_fold; [exact Hfold |]. cbn in Hin.
      repeat destruct Hin as [Hin | Hin]; try contradiction;
        injection Hin as <- <-; reflexivity.
  - intros c name lvl -> Hne Hin Hlow. f_equal.
    exact (Setup_core_named c name lvl Hne Hin Hlow).
  - intros c -> Hno. f_equal. exact (Setup_core_unnamed c Hno).
  - reflexivity.
Qed.

(** C7.  With no configuration [Setup] writes to the console only.  With
    a configuration it builds a rotating file on the configured path with
    10 MB per file, 30 backups, 7 days and compression; lines go to the
    console and to that file when [Console()] is set, and to the file only
    otherwise. *)
Theorem Setup_sinks (config : option Config) (g : Globals) :
  (config = None ->
   exists w, sink (Setup config g).1 = Some w /\
             Zap.destinations w = [Zap.osStdout]) /\
  (forall c, config = Some c ->
     exists w, sink (Setup config g).1 = Some w /\
               Zap.destinations w =
               if Console c then [Zap.osStdout; rotating_file c]
               else [rotating_file c]).
Proof.
  rewrite Setup_installs. unfold sink.
  cbn [fst logger fmap option_fmap option_map]. rewrite setup_logger_core.
  split.
  - intros ->. eexists. split; reflexivity.
  - intros c ->. eexists. split; [reflexivity |].
    unfold Setup_core, rotating_file. cbn [Zap.out].
    destruct (Console c), (Async c); reflexivity.
Qed.

(** C8.  The sink of [Setup] is a write buffer of 4096 bytes around the
    sink resolved from the rest of the configuration exactly when a
    configuration is present and its [Async()] flag is set; otherwise the
    sink has no buffer. *)
Theorem Setup_buffering (config : option Config) (g : Globals) :
  exists w, sink (Setup config g).1 = Some w /\
    (Zap.bufferSize w = Some 4096 <->
     exists c, config = Some c /\ Async c = true) /\
    (forall c, config = Some c -> Async c = true ->
       exists inner,
         w = Zap.BufferedWriteSyncer inner 4096 /\
         Zap.bufferSize inner = None /\
         sink (Setup (Some (synchronous c)) g).1 = Some inner) /\
    ((forall c, config = Some c -> Async c = false) ->
     Zap.bufferSize w = None).
Proof.
  rewrite !Setup_installs. unfold sink.
  cbn [fst logger fmap option_fmap option_map]. rewrite setup_logger_core.
  eexists. split; [reflexivity |].
  destruct config as [c |].
  - unfold Setup_core. cbn [Zap.out].
    destruct (Async c) eqn:Ha.
    + split; [| split].
      * split; [intros _; exists c; auto | reflexivity].
      * intros c' [= <-] _. eexists. split; [reflexivity |].
        split; [destruct (Console c); reflexivity | reflexivity].
      * intros H. specialize (H c eq_refl). congruence.
    + split; [| split].
      * split.
        -- destruct (Console c); discriminate.
        -- intros (c' & [= <-] & H). congruence.
      * intros c' [= <-] H. congruence.
      * intros _. destruct (Console c); reflexivity.
  - split; [| split].
    + split; [discriminate | intros (c & H & _); discriminate].
    + intros c H. discriminate.
    + intros _. reflexivity.
Qed.

(** C10.  The logger [Setup] installs for a nil configuration is the
    logger the lazy default path installs: the console encoder with the
    package's time, level and caller encoders, the seconds duration
    encoder and a single space as separator; standard output as its only
    sink, unbuffered; the debug threshold; caller annotation skipping one
    frame. *)
Theorem Setup_nil_is_default (g : Globals) :
  logger (Setup None g).1 = logger (ensureInitialized fresh) /\
  sugar (Setup None g).1 = sugar (ensureInitialized fresh) /\
  setup_logger None = default_logger /\
  exists lg cfg,
    logger (Setup None g).1 = Some lg /\
    Zap.enc (Zap.core lg) = Zap.NewConsoleEncoder cfg /\
    Zap.EncodeTime cfg = EncodeTime /\
    Zap.EncodeLevel cfg = EncodeLevel /\
    Zap.EncodeCaller cfg = EncodeCaller /\
    Zap.EncodeDuration cfg = Zap.SecondsDurationEncoder /\
    Zap.ConsoleSeparator cfg = " " /\
    Zap.destinations (Zap.out (Zap.core lg)) = [Zap.osStdout] /\
    Zap.bufferSize (Zap.out (Zap.core lg)) = None /\
    Zap.enab (Zap.core lg) = Zap.DebugLevel /\
    Zap.addCaller lg = true /\
    Zap.callerSkip lg = 1.
Proof.
  repeat split.
  do 2 eexists. repeat split.
Qed.

End SetupProperties.

(** ** The interleaving model: the invariant is inductive *)

Lemma lock_free_spec m : lock_free m = true -> writer m = None /\ readers m = ∅.
Proof.
  unfold lock_free. destruct (writer m); [discriminate |].
  intros H%bool_decide_eq_true. auto.
Qed.

Lemma beforeBuild_inBody p : beforeBuild p = true -> inBody p = true.
Proof. destruct p; cbn; congruence. Qed.

Lemma assigning_holdsW p : assigning p = true -> holdsW p = true.
Proof. destruct p; cbn; congruence. Qed.

Lemma live_insert (l : list Thread) i j x :
  is_Some (l !! j) -> is_Some (<[i:=x]> l !! j).
Proof. rewrite !lookup_lt_is_Some, length_insert. auto. Qed.

Lemma head_None {A} (l : list A) : head l = None -> l = [].
Proof. destruct l; [reflexivity | discriminate]. Qed.

(** Case analysis on the statement thread [i] executes. *)
Ltac step_cases H :=
  unfold tstep in H;
  destruct (exited _) eqn:?; [discriminate H |];
  match type of H with
  | context [threads ?s !! ?i] =>
      let t := fresh "t" in
      destruct (threads s !! i) as [t |] eqn:?; [| discriminate H];
      let p := fresh "p" in let cs := fresh "cs" in let rs := fresh "rs" in
      destruct t as [p cs rs]; cbn [mbind option_bind pc calls returned] in H;
      destruct p
  end;
  repeat match type of H with
    | (?x ≫= _) = Some _ => destruct x as [[? ?] |] eqn:?; cbn [mbind option_bind] in H
    | None = Some _ => discriminate H
    | context [match ?x with _ => _ end] => destruct x eqn:?
    | context [if ?x then _ else _] => destruct x eqn:?
    | Some _ = Some _ => injection H as <-
    end.

Ltac reduce :=
  cbn -[lookup insert union difference elem_of installed default_logger setup_logger].

Ltac reduce_all :=
  cbn -[lookup insert union difference elem_of installed default_logger setup_logger] in *.

Ltac start H := step_cases H; reduce.

(** Membership in the reader set after an acquire or a release. *)
Ltac sets :=
  repeat first [ rewrite elem_of_union | rewrite elem_of_difference
               | rewrite elem_of_singleton | rewrite elem_of_empty ].

Ltac sets_in H :=
  repeat first [ rewrite elem_of_union in H | rewrite elem_of_difference in H
               | rewrite elem_of_singleton in H | rewrite elem_of_empty in H ].

(** Simplify what the invariant says about a thread whose location is known. *)
Ltac facts :=
  repeat match goal with
    | H : true = true <-> _ |- _ => apply proj1 in H; specialize (H eq_refl)
    | H : false = true <-> ?P |- _ =>
        let H' := fresh in
        assert (H' : ~ P)
          by (let HP := fresh in intros HP; apply H in HP; discriminate HP);
        clear H
    | H : true = true -> _ |- _ => specialize (H eq_refl)
    | H : ?x = ?x -> _ |- _ => specialize (H eq_refl)
    | H : false = true -> _ |- _ => clear H
    | H : _ /\ _ |- _ => destruct H
    | H : exists _, _ |- _ => destruct H
    | H : ?a = ?b -> _ |- _ => (assert (a <> b) by discriminate); clear H
    end.

Ltac rew :=
  repeat match goal with
    | E : st_sugar _ = _ |- _ => progress rewrite E in *
    | E : st_logger _ = _ |- _ => progress rewrite E in *
    | E : st_initOnce _ = _ |- _ => progress rewrite E in *
    end.

(** The lookup of thread [j] after thread [i] moved. *)
Ltac split_thread i :=
  let j := fresh "j" in let t := fresh "t" in let Hj := fresh "Hj" in
  intros j t Hj;
  destruct (decide (j = i)) as [-> | ?];
  [ rewrite list_lookup_insert_eq in Hj by (eapply lookup_lt_Some; eassumption);
    injection Hj as <-
  | rewrite list_lookup_insert_ne in Hj by congruence ].

Section InvariantProofs.

Context {ext : Collaborators}.

(** What the invariant says about the thread that moves. *)
Ltac own HI :=
  match goal with
  | Hl : threads ?s !! ?i = Some ?ti |- _ =>
      let Hi := fresh "Hi" in
      pose proof (inv_threads _ HI _ _ Hl) as Hi;
      destruct Hi as [Hiw Hir Hio Hib Hih Hin Hie Hisu Hisc Hilc Hibu Hinf Hiret];
      reduce_all; facts;
      try match goal with
          | Hb : lock_free _ = true |- _ => apply lock_free_spec in Hb; destruct Hb
          end
  end.

Lemma Inv_init programs : Inv (init programs).
Proof.
  constructor; cbn.
  - intros j t Ht. apply list_lookup_fmap_Some in Ht as (cs & -> & _).
    constructor; cbn; solve [intros; discriminate | split; intros; discriminate | auto].
  - intros j ?. discriminate.
  - intros j []%elem_of_empty.
  - intros []. discriminate.
  - intros j ?. discriminate.
  - reflexivity.
  - lia.
  - intros []%elem_of_nil.
  - intros ?. discriminate.
  - reflexivity.
  - intros [| ? ?] ?; discriminate.
  - intros []. discriminate.
  - intros []. discriminate.
  - intros e []%elem_of_nil.
Qed.

(** A thread other than the one that moves keeps its invariant: the mover
    takes or releases the lock, enters or leaves the once body, builds the
    logger inside the body, or assigns the handle under the lock. *)
Lemma thread_inv_other s s' i j t :
  j <> i -> thread_inv s j t ->
  (writer (st_initMu s') = writer (st_initMu s) \/
   (writer (st_initMu s) = None /\ writer (st_initMu s') = Some i) \/
   (writer (st_initMu s) = Some i /\ writer (st_initMu s') = None)) ->
  (forall k, k <> i -> k ∈ readers (st_initMu s') <-> k ∈ readers (st_initMu s)) ->
  (st_initOnce s' = st_initOnce s \/
   (st_initOnce s = OnceFresh /\ st_initOnce s' = OnceRunning i) \/
   (st_initOnce s = OnceRunning i /\ st_initOnce s' = OnceDone)) ->
  (defaultBuilt s' = defaultBuilt s \/ st_initOnce s = OnceRunning i) ->
  ((st_sugar s' = st_sugar s /\ st_logger s' = st_logger s) \/
   (writer (st_initMu s) = Some i /\ (is_Some (st_sugar s) -> is_Some (st_sugar s')))) ->
  thread_inv s' j t.
Proof.
  intros Hne [] Hw Hr Ho Hb Hh.
  assert (Hlog : pc t = EI_Logger -> holdsW (pc t) = true) by (intros ->; reflexivity).
  assert (Heis : pc t = EI_Sugar -> holdsW (pc t) = true) by (intros ->; reflexivity).
  assert (Hsus : pc t = SU_Sugar -> holdsW (pc t) = true) by (intros ->; reflexivity).
  assert (Heib : pc t = EI_Sugar -> inBody (pc t) = true) by (intros ->; reflexivity).
  pose proof (beforeBuild_inBody (pc t)) as Hbb.
  constructor; try assumption.
  - destruct Hw as [-> | [[E ->] | [E ->]]]; [assumption | |]; rewrite E in *;
      split; intros; try congruence; exfalso; intuition congruence.
  - rewrite Hr by assumption. assumption.
  - destruct Ho as [-> | [[E ->] | [E ->]]]; [assumption | |]; rewrite E in *;
      split; intros; try congruence; exfalso; intuition congruence.
  - intros Hp. destruct Hb as [-> | E]; [auto |].
    exfalso. intuition congruence.
  - intros Hp. destruct Hh as [[-> _] | [_ Hs]]; auto.
  - intros Hp. destruct Hh as [[-> ->] | [E _]]; [auto |].
    exfalso. intuition congruence.
  - intros Hp. destruct Hh as [[-> ->] | [E _]]; [auto |].
    exfalso. intuition congruence.
  - intros Hp. destruct Hh as [[_ ->] | [E _]]; [auto |].
    exfalso. intuition congruence.
  - intros Hp. destruct Hb as [-> | E]; [auto |].
    exfalso. intuition congruence.
Qed.

Lemma threads_step i s s' :
  Inv s -> tstep i s = Some s' ->
  forall j t, threads s' !! j = Some t -> thread_inv s' j t.
Proof.
  intros HI H. start H.
  all: own HI.
  all: match goal with
       | Hl : threads ?s !! ?i = Some ?ti |- _ => split_thread i
       end.
  (* the other threads *)
  all: try match goal with
       | Hj : threads ?s !! ?j = Some ?t, Hne : ?j <> ?i |- thread_inv _ ?j ?t =>
           apply (thread_inv_other s _ i j t Hne (inv_threads _ HI _ _ Hj));
           reduce; intros; sets;
           try match goal with H : st_logger _ = Some _ |- _ => rewrite H end;
           solve [intuition (eauto; congruence)]
       end.
  (* the thread that moved *)
  all: constructor; reduce; sets.
  all: try solve [intuition (eauto; congruence)].
  all: try (apply Forall_app; split; [assumption | repeat constructor]).
  all: try (pose proof (inv_built _ HI); pose proof (inv_runs _ HI);
            match goal with E : st_initOnce _ = _ |- _ => rewrite E in * end;
            intros; lia).
  all: try (intros; apply (inv_done _ HI); assumption).
  all: try (match goal with H : st_logger _ = Some _ |- _ => rewrite H end; cbn; eauto).
  all: try (match goal with
            | H : is_Some (st_sugar ?s), H' : st_sugar ?s = None |- _ =>
                rewrite H' in H; destruct H; discriminate
            end).
  (* at the re-check with no handle, no logger is set either: whoever is
     between the two assignments holds the lock *)
  all: intros _; split; [assumption |].
  all: destruct (st_logger s) eqn:El; [exfalso | reflexivity].
  all: destruct (inv_assigning _ HI) as (k & tk & Hk & Ha); [eauto | assumption |].
  all: pose proof (assigning_holdsW _ Ha) as Hw.
  all: apply (ti_writer _ _ _ (inv_threads _ HI _ _ Hk)) in Hw.
  all: assert (k = i) as -> by congruence.
  all: simplify_eq; discriminate.
Qed.

Lemma lock_step i s s' :
  Inv s -> tstep i s = Some s' ->
  (forall j, writer (st_initMu s') = Some j -> is_Some (threads s' !! j)) /\
  (forall j, j ∈ readers (st_initMu s') -> is_Some (threads s' !! j)) /\
  (is_Some (writer (st_initMu s')) -> readers (st_initMu s') = ∅) /\
  (forall j, st_initOnce s' = OnceRunning j -> is_Some (threads s' !! j)).
Proof.
  intros HI H.
  pose proof (inv_writer_live _ HI) as Hwl.
  pose proof (inv_readers_live _ HI) as Hrl.
  pose proof (inv_excl _ HI) as Hex.
  pose proof (inv_once_live _ HI) as Hol.
  start H.
  all: own HI.
  all: assert (Hlive : is_Some (threads s !! i)) by eauto.
  all: repeat split; intros; sets.
  all: try (apply live_insert).
  all: try solve [eauto | simplify_eq; eauto | intuition (subst; eauto) ].
  all: try (rewrite Hex by assumption; apply set_eq; intros x;
            rewrite elem_of_difference, elem_of_empty; tauto).
  all: try match goal with
           | H : _ ∈ _ |- _ =>
               sets_in H; destruct H as [-> | H] || destruct H as [H _]; eauto
           end.
  all: congruence.
Qed.

Lemma counters_step i s s' :
  Inv s -> tstep i s = Some s' ->
  bodyRuns s' = match st_initOnce s' with OnceFresh => 0%nat | _ => 1%nat end /\
  (defaultBuilt s' <= bodyRuns s')%nat /\
  (st_initOnce s' = OnceDone -> is_Some (st_sugar s')) /\
  (is_Some (st_sugar s') -> is_Some (st_logger s')).
Proof.
  intros HI H.
  pose proof (inv_runs _ HI) as Hruns.
  pose proof (inv_built _ HI) as Hbuilt.
  pose proof (inv_done _ HI) as Hdone.
  pose proof (inv_logger _ HI) as Hlog.
  start H.
  all: own HI.
  all: repeat split; intros.
  all: rew.
  all: try solve [eauto | congruence | lia].
  all: cbn; eauto.
Qed.

Lemma history_step i s s' :
  Inv s -> tstep i s = Some s' ->
  st_sugar s' = installed <$> head (installs s') /\
  (forall pre post, installs s' = (pre ++ DefaultInstall :: post)%list -> post = []) /\
  (forall e, e ∈ output s' -> exists ins, ins ∈ installs s' /\ via e = installed ins) /\
  (DefaultInstall ∈ installs s' -> defaultBuilt s' = 1%nat).
Proof.
  intros HI H. start H.
  all: pose proof (inv_sugar _ HI) as Hsugar.
  all: pose proof (inv_default_first _ HI) as Hfirst.
  all: pose proof (inv_output _ HI) as Hout.
  all: pose proof (inv_built_installed _ HI) as Hbi.
  all: own HI.
  all: repeat split; try assumption.
  all: rew; simplify_eq.
  all: try reflexivity.
  all: try (intros e He; destruct (Hout e He) as (ins & Hin & Hv); exists ins;
            split; [apply elem_of_cons; by right | assumption]).
  all: try (intros [? | ?]%elem_of_cons; [discriminate | auto]).
  all: try (intros ?; congruence).
  (* the default logger is assigned only when nothing was installed *)
  - symmetry in Hsugar. apply fmap_None in Hsugar. apply head_None in Hsugar.
    rewrite Hsugar. intros [| x pre] post E; simplify_eq/=; [reflexivity |].
    destruct pre; discriminate.
  (* an entry is written through the handle that is installed *)
  - intros e0 [-> | He]%elem_of_cons; [| by apply Hout]. cbn.
    destruct (installs s) as [| ins inss]; cbn in *; simplify_eq.
    exists ins. split; [apply elem_of_cons; by left | reflexivity].
  - intros e0 [-> | He]%elem_of_cons; [| by apply Hout]. cbn.
    destruct (installs s) as [| ins inss]; cbn in *; simplify_eq.
    exists ins. split; [apply elem_of_cons; by left | reflexivity].
  - intros e0 [-> | He]%elem_of_cons; [| by apply Hout]. cbn.
    destruct (installs s) as [| ins inss]; cbn in *; simplify_eq.
    exists ins. split; [apply elem_of_cons; by left | reflexivity].
  (* Setup puts its handle in front of whatever was installed *)
  - intros [| x pre] post E; simplify_eq/=. eapply Hfirst; eauto.
Qed.

Lemma assigning_step i s s' :
  Inv s -> tstep i s = Some s' ->
  is_Some (st_logger s') -> st_sugar s' = None ->
  exists j t, threads s' !! j = Some t /\ assigning (pc t) = true.
Proof.
  intros HI H. start H.
  all: pose proof (inv_assigning _ HI) as Hassign.
  all: own HI.
  all: intros Hl Hs.
  all: rew.
  all: try discriminate.
  all: try (eexists i, _; split;
            [apply list_lookup_insert_eq; eapply lookup_lt_Some; eassumption
            | reflexivity]).
  all: destruct Hassign as (k & tk & Hk & Ha); [solve [eauto] | congruence |].
  all: destruct (decide (k = i)) as [-> | Hne]; [simplify_eq; discriminate |].
  all: exists k, tk; split; [by rewrite list_lookup_insert_ne | assumption].
Qed.

Theorem Inv_step i s s' : Inv s -> tstep i s = Some s' -> Inv s'.
Proof.
  intros HI H.
  destruct (lock_step i s s' HI H) as (? & ? & ? & ?).
  destruct (counters_step i s s' HI H) as (? & ? & ? & ?).
  destruct (history_step i s s' HI H) as (? & ? & ? & ?).
  constructor; try assumption.
  - exact (threads_step i s s' HI H).
  - exact (assigning_step i s s' HI H).
Qed.

Lemma Inv_run schedule s s' : Inv s -> run schedule s = Some s' -> Inv s'.
Proof.
  revert s. induction schedule as [| i schedule IH]; intros s HI H; cbn in H.
  - congruence.
  - destruct (tstep i s) as [s1 |] eqn:Hs; [| discriminate].
    cbn in H. eapply IH; [| exact H]. eapply Inv_step; eauto.
Qed.

Theorem Inv_reachable programs s : reachable programs s -> Inv s.
Proof. intros [schedule H]. eapply Inv_run; [apply Inv_init | exact H]. Qed.

(** *** Processes that never call Setup *)

Lemma NoSetup_init programs : no_Setup_calls programs -> NoSetup (init programs).
Proof.
  intros Hp. constructor; cbn.
  - intros j t Ht. apply list_lookup_fmap_Some in Ht as (cs & -> & Hcs).
    cbn. apply Hp. eapply list_elem_of_lookup_2. exact Hcs.
  - intros j t Ht. apply list_lookup_fmap_Some in Ht as (cs & -> & _). reflexivity.
  - intros ins []%elem_of_nil.
Qed.

Lemma NoSetup_step i s s' : NoSetup s -> tstep i s = Some s' -> NoSetup s'.
Proof.
  intros [Hc Hp Hi] H. start H.
  all: match goal with
       | Hl : threads ?s !! ?i = Some ?ti |- _ =>
           pose proof (Hc _ _ Hl) as Hci; pose proof (Hp _ _ Hl) as Hpi;
           cbn in Hci, Hpi; try discriminate
       end.
  all: constructor; reduce.
  all: try match goal with
           | Hl : threads ?s !! ?i = Some ?ti |- forall j t, _ !! j = Some t -> _ =>
               split_thread i; [reduce | eauto]
           end.
  all: try solve [assumption | reflexivity | eauto].
  all: try (apply andb_true_iff in Hci as [_ Hci]; exact Hci).
  all: try (destruct cs; [reflexivity | apply andb_true_iff in Hci as [_ Hci]; exact Hci]).
  all: intros ins [-> | ?]%elem_of_cons; [reflexivity | eauto].
Qed.

Lemma NoSetup_run schedule s s' : NoSetup s -> run schedule s = Some s' -> NoSetup s'.
Proof.
  revert s. induction schedule as [| i schedule IH]; intros s HI H; cbn in H.
  - congruence.
  - destruct (tstep i s) as [s1 |] eqn:Hs; [| discriminate].
    cbn in H. eapply IH; [| exact H]. eapply NoSetup_step; eauto.
Qed.

(** *** Every run ends, and none gets stuck *)

Lemma sum_list_insert (l : list Thread) i x y :
  l !! i = Some x ->
  (sum_list (weight <$> <[i:=y]> l) + weight x
   = sum_list (weight <$> l) + weight y)%nat.
Proof.
  revert i. induction l as [| a l IH]; intros [| i] H; try discriminate.
  - simplify_eq/=. lia.
  - simplify_eq/=. specialize (IH i H). lia.
Qed.

Lemma tstep_decreases i s s' :
  Inv s -> tstep i s = Some s' -> (total s' < total s)%nat.
Proof.
  intros HI H. unfold total. start H.
  all: match goal with
       | Hl : threads ?s !! ?i = Some ?ti |- _ =>
           pose proof (inv_threads _ HI _ _ Hl) as Hi;
           destruct Hi as [_ _ _ _ _ _ _ _ Hisc Hilc _ _ _ ];
           match goal with
           | |- context [<[i := ?y]> _] =>
               pose proof (sum_list_insert _ _ _ y Hl) as Hsum
           end
       end.
  all: unfold weight in *; cbn [pc calls remaining] in *.
  all: try lia.
  all: destruct cs; cbn [tail length] in *; [| lia].
  all: cbn in *.
  all: try discriminate.
  all: destruct Hisc as [? ?]; [reflexivity | discriminate].
Qed.

Lemma run_bounded schedule s s' :
  Inv s -> run schedule s = Some s' ->
  (length schedule + total s' <= total s)%nat.
Proof.
  revert s. induction schedule as [| i schedule IH]; intros s HI H; cbn in H.
  - simplify_eq. cbn. lia.
  - destruct (tstep i s) as [s1 |] eqn:Hs; [| discriminate]. cbn in H.
    pose proof (tstep_decreases _ _ _ HI Hs).
    pose proof (IH s1 (Inv_step _ _ _ HI Hs) H). cbn [length]. lia.
Qed.

(** A thread that is not waiting for the lock or for the once body moves. *)
Lemma tstep_enabled k s t :
  Inv s -> exited s = None -> threads s !! k = Some t -> finished t = false ->
  (pc t = EI_RLock -> writer (st_initMu s) = None) ->
  (pc t = EI_Lock \/ pc t = SU_Lock -> lock_free (st_initMu s) = true) ->
  (pc t = EI_Once -> forall j, st_initOnce s <> OnceRunning j) ->
  exists s', tstep k s = Some s'.
Proof.
  intros HI Hex Hk Hfin Hr Hl Ho.
  pose proof (inv_threads _ HI _ _ Hk) as [_ _ _ _ _ _ _ _ Hsc Hlc _ _ _].
  unfold tstep. rewrite Hex, Hk. cbn [mbind option_bind].
  destruct t as [p cs rs]. unfold finished in Hfin. cbn [pc calls] in *.
  destruct p; cbn in Hsc, Hlc; try discriminate Hfin.
  all: try (destruct Hsc as [config Hc]; [reflexivity |]; destruct cs; simplify_eq/=).
  all: try (destruct Hlc as [[lvl msg] Hlm]; [reflexivity |]; rewrite Hlm).
  all: try rewrite Hr by reflexivity.
  all: try rewrite Hl by auto.
  all: cbn [mbind option_bind].
  all: try solve [eexists; reflexivity].
  - destruct cs as [| [] cs]; [discriminate | eexists; reflexivity ..].
  - destruct (st_sugar s); eexists; reflexivity.
  - destruct (st_initOnce s) eqn:E; [eexists; reflexivity | | eexists; reflexivity].
    exfalso. eapply Ho; eauto.
  - destruct (st_sugar s); eexists; reflexivity.
  - destruct (st_sugar s); [| eexists; reflexivity].
    destruct (Zap.log _ _ _) as [e []]; eexists; reflexivity.
Qed.

Lemma all_or_one (l : list Thread) :
  (forall j t, l !! j = Some t -> finished t = true) \/
  (exists j t, l !! j = Some t /\ finished t = false).
Proof.
  induction l as [| a l [IH | (j & t & Hj & Hf)]].
  - left. intros j t H. discriminate.
  - destruct (finished a) eqn:Ea.
    + left. intros [| j] t H; simplify_eq/=; eauto.
    + right. exists 0%nat, a. auto.
  - right. exists (S j), t. auto.
Qed.

(** Unless the process has exited or every thread is done, some thread can
    move: the holder of the write lock, else a reader, else the thread
    inside the once body, else any thread that is not done. *)
Theorem no_deadlock s :
  Inv s -> exited s = None ->
  (forall j t, threads s !! j = Some t -> finished t = true) \/
  (exists i s', tstep i s = Some s').
Proof.
  intros HI Hex.
  destruct (all_or_one (threads s)) as [Hall | (j & t & Hj & Hf)]; [by left | right].
  destruct (writer (st_initMu s)) as [k |] eqn:Hw.
  { destruct (inv_writer_live _ HI k Hw) as [tk Hk].
    pose proof (inv_threads _ HI _ _ Hk) as Htk.
    apply (ti_writer _ _ _ Htk) in Hw as Hpc.
    exists k. apply (tstep_enabled k s tk HI Hex Hk).
    - unfold finished. destruct (pc tk); try discriminate; reflexivity.
    - intros E; rewrite E in Hpc; discriminate.
    - intros [E | E]; rewrite E in Hpc; discriminate.
    - intros E; rewrite E in Hpc; discriminate. }
  destruct (decide (readers (st_initMu s) = ∅)) as [Hr | Hr].
  2: { apply set_choose_L in Hr as [k Hk'].
       destruct (inv_readers_live _ HI k Hk') as [tk Hk].
       pose proof (inv_threads _ HI _ _ Hk) as Htk.
       apply (ti_reader _ _ _ Htk) in Hk' as Hpc.
       exists k. apply (tstep_enabled k s tk HI Hex Hk).
       - unfold finished. destruct (pc tk); try discriminate; reflexivity.
       - intros _. exact Hw.
       - intros [E | E]; rewrite E in Hpc; discriminate.
       - intros E; rewrite E in Hpc; discriminate. }
  assert (Hfree : lock_free (st_initMu s) = true).
  { unfold lock_free. rewrite Hw. apply bool_decide_eq_true. exact Hr. }
  destruct (st_initOnce s) as [| k |] eqn:Ho.
  - exists j. apply (tstep_enabled j s t HI Hex Hj Hf); auto. intros _ ?. congruence.
  - destruct (inv_once_live _ HI k Ho) as [tk Hk].
    pose proof (inv_threads _ HI _ _ Hk) as Htk.
    apply (ti_once _ _ _ Htk) in Ho as Hpc.
    exists k. apply (tstep_enabled k s tk HI Hex Hk); auto.
    + unfold finished. destruct (pc tk); try discriminate; reflexivity.
    + intros E; rewrite E in Hpc; discriminate.
  - exists j. apply (tstep_enabled j s t HI Hex Hj Hf); auto. intros _ ?. congruence.
Qed.

End InvariantProofs.

(** ** One thread: the interleaving model runs the functions of the package *)

Section SingleThread.

Context {ext : Collaborators}.

Lemma readers_released (i : nat) : ({[i]} ∪ (∅ : gset nat)) ∖ {[i]} = ∅.
Proof.
  apply set_eq. intros x.
  rewrite elem_of_difference, elem_of_union, elem_of_singleton, elem_of_empty. tauto.
Qed.

Lemma no_readers_free : lock_free {| writer := None; readers := ∅ |} = true.
Proof. unfold lock_free. cbn. apply bool_decide_eq_true_2. reflexivity. Qed.

Lemma call_leveled c lvl msg g :
  forwarded c = Some (lvl, msg) ->
  call c g = (ensureInitialized g, Log (forward (ensureInitialized g) lvl msg)).
Proof. destruct c; intros H; simplify_eq/=; reflexivity. Qed.

(** One statement of the only thread, from a state written out in full. *)
Ltac evaluate rw :=
  cbn -[default_logger setup_logger Zap.log Zap.Sugar union difference empty singleton
         lock_free forwarded];
  cbv beta iota delta [goto ret set_logger set_sugar set_initOnce set_initMu set_threads
                       set_output set_exited count_bodyRun count_defaultBuilt
                       record_install];
  cbn -[default_logger setup_logger Zap.log Zap.Sugar union difference empty singleton
         lock_free forwarded];
  rw.

Ltac one_step rw :=
  cbn [run];
  match goal with
  | |- context [tstep ?i ?s] =>
      let H := fresh in
      eassert (H : tstep i s = Some _)
        by (unfold tstep; repeat (evaluate rw); reflexivity);
      rewrite H; clear H; cbn [mbind option_bind]
  end.

Tactic Notation "steps" integer(n) :=
  do n one_step ltac:(
    repeat match goal with
      | H : forwarded _ = Some _ |- _ => rewrite H
      | H : Zap.log _ _ _ = _ |- _ => rewrite H
      end;
    rewrite ?readers_released, ?no_readers_free).


Lemma ensureInitialized_builds lg :
  ensureInitialized {| logger := lg; sugar := None; initOnce := false |}
  = {| logger := Some default_logger; sugar := Some (Zap.Sugar default_logger);
       initOnce := true |}.
Proof. reflexivity. Qed.

(** On a single thread, the statements of a call, run to its end, leave the
    package variables as the function leaves them and show its outcome. *)
Theorem single_thread_call (c : Call) (cs : list Call) (g : Globals) :
  exists schedule s',
    run schedule (process_of g (c :: cs)) = Some s' /\
    globals_of s' = (call c g).1 /\
    observed s' = Some (observable (call c g).2).
Proof.
  destruct g as [lg sg once]. unfold process_of. cbn [logger sugar initOnce].
  destruct (forwarded c) as [[lvl msg] |] eqn:Hf.
  - rewrite (call_leveled _ _ _ _ Hf).
    destruct sg as [sg |]; [| destruct once].
    + (* the handle is set: the fast path *)
      exists (repeat 0%nat 5). cbn [repeat].
      unfold forward. cbn [sugar ensureInitialized].
      destruct (Zap.log sg lvl msg) as [[e |] []] eqn:Hlog.
      all: steps 5.
      all: eexists; split; [reflexivity |]; split; [destruct once |]; reflexivity.
    + (* no handle though the once body has run: the nil handle is used *)
      exists (repeat 0%nat 6). cbn [repeat]. steps 6.
      eexists; split; [reflexivity |]; split; reflexivity.
    + (* no handle: the default logger is built *)
      rewrite ensureInitialized_builds.
      exists (repeat 0%nat 12). cbn [repeat].
      unfold forward. cbn [sugar].
      destruct (Zap.log (Zap.Sugar default_logger) lvl msg) as [[e |] []] eqn:Hlog.
      all: steps 12.
      all: eexists; split; [reflexivity |]; split; reflexivity.
  - destruct c; try discriminate Hf.
    + unfold call. rewrite Setup_installs.
      exists (repeat 0%nat 6). cbn [repeat]. steps 6.
      eexists; split; [reflexivity |]; split; [destruct once |]; reflexivity.
    + exists [0%nat]. steps 1.
      eexists; split; [reflexivity |]; split; [destruct once |]; reflexivity.
Qed.

End SingleThread.

(** ** The lazy default initialization and Setup, on interleaved threads *)

Section Temporal.

Context {ext : Collaborators}.

Lemma forwarded_enabled c lvl msg :
  forwarded c = Some (lvl, msg) -> Zap.Enabled Zap.DebugLevel lvl = true.
Proof. destruct c; intros H; simplify_eq/=; reflexivity. Qed.

Lemma NoSetup_handle s :
  Inv s -> NoSetup s -> is_Some (st_sugar s) ->
  st_sugar s = Some (Zap.Sugar default_logger) /\ defaultBuilt s = 1%nat.
Proof.
  intros HI HN [sg Hsg].
  pose proof (inv_sugar _ HI) as Hs. rewrite Hsg in Hs.
  destruct (installs s) as [| ins inss] eqn:Ei; [discriminate |].
  assert (Hin : ins ∈ installs s) by (rewrite Ei; apply elem_of_cons; by left).
  pose proof (ns_installs _ HN _ Hin) as ->.
  split; [rewrite Hsg, Hs; reflexivity |].
  apply (inv_built_installed _ HI). exact Hin.
Qed.

(** C1.  Before any [Setup]: each of the twelve leveled logging functions,
    called on the fresh package, installs the default logger and hands it
    its entry, which is written (standard output is the only sink, and the
    debug threshold lets every level through); the call then ends as zap
    ends an entry of its level.  In every interleaving of threads that
    never call [Setup], the default logger is built at most once (as in
    every interleaving at all), and exactly once by the time any thread is
    past [ensureInitialized]; the function passed to [initOnce.Do] runs at
    most once; no thread
    dereferences a nil handle; every thread that reaches its forwarding call
    writes its entry through the default logger; whenever an entry has been
    written the default logger has been built exactly once; and the process
    does not get stuck.  Every run is finite. *)
Theorem lazy_default_init :
  (forall c lvl msg,
      forwarded c = Some (lvl, msg) ->
      call c fresh =
      ({| logger := Some default_logger;
          sugar := Some (Zap.Sugar default_logger);
          initOnce := true |},
       Log (Logged (Zap.Sugar default_logger)
              (Some {| Zap.EntryLevel := lvl; Zap.EntryMessage := msg |})
              (Zap.terminal lvl)))) /\
  Zap.destinations (Zap.out (Zap.core (Zap.base (Zap.Sugar default_logger)))) = [Zap.osStdout] /\
  Zap.bufferSize (Zap.out (Zap.core (Zap.base (Zap.Sugar default_logger)))) = None /\
  Zap.enab (Zap.core (Zap.base (Zap.Sugar default_logger))) = Zap.DebugLevel /\
  (forall programs s,
      no_Setup_calls programs -> reachable programs s ->
      (defaultBuilt s <= 1)%nat /\ (bodyRuns s <= 1)%nat /\
      (forall j t, threads s !! j = Some t -> pc t <> Fault) /\
      (forall j t, threads s !! j = Some t -> pc t = Forward ->
                   st_sugar s = Some (Zap.Sugar default_logger) /\
                   defaultBuilt s = 1%nat) /\
      (forall j t s', threads s !! j = Some t -> pc t = Forward ->
                      tstep j s = Some s' ->
                      exists c lvl msg,
                        head (calls t) = Some c /\ forwarded c = Some (lvl, msg) /\
                        output s' =
                        {| by_thread := j; via := Zap.Sugar default_logger;
                           entry := {| Zap.EntryLevel := lvl; Zap.EntryMessage := msg |} |}
                          :: output s) /\
      (forall e, e ∈ output s ->
                 via e = Zap.Sugar default_logger /\ defaultBuilt s = 1%nat) /\
      (exited s = None ->
       (forall j t, threads s !! j = Some t -> finished t = true) \/
       (exists i s', tstep i s = Some s'))) /\
  (forall programs s,
      reachable programs s ->
      (defaultBuilt s <= 1)%nat /\ (bodyRuns s <= 1)%nat) /\
  (forall programs schedule s,
      run schedule (init programs) = Some s ->
      (length schedule + total s <= total (init programs))%nat).
Proof.
  split; [| split; [| split; [| split; [| split; [| split]]]]]; try reflexivity.
  - intros c lvl msg H. destruct c; simplify_eq/=; reflexivity.
  - intros programs s Hp [schedule Hrun].
    pose proof (Inv_run _ _ _ (Inv_init programs) Hrun) as HI.
    pose proof (NoSetup_run _ _ _ (NoSetup_init programs Hp) Hrun) as HN.
    pose proof (inv_built _ HI) as Hb. pose proof (inv_runs _ HI) as Hr.
    assert (Hfw : forall j t, threads s !! j = Some t -> pc t = Forward ->
                  st_sugar s = Some (Zap.Sugar default_logger) /\ defaultBuilt s = 1%nat).
    { intros j t Hj Hpc. apply NoSetup_handle; [assumption .. |].
      apply (ti_handle _ _ _ (inv_threads _ HI _ _ Hj)). rewrite Hpc. reflexivity. }
    split; [| split; [| split; [| split; [| split; [| split]]]]].
    + destruct (st_initOnce s); lia.
    + destruct (st_initOnce s); lia.
    + intros j t Hj. exact (ti_nofault _ _ _ (inv_threads _ HI _ _ Hj)).
    + exact Hfw.
    + intros j t s' Hj Hpc Hstep.
      destruct (Hfw j t Hj Hpc) as [Hsg _].
      unfold tstep in Hstep. destruct (exited s); [discriminate |].
      rewrite Hj in Hstep. cbn [mbind option_bind] in Hstep. rewrite Hpc in Hstep.
      destruct (head (calls t)) as [c |] eqn:Hc; [| discriminate].
      cbn [mbind option_bind] in Hstep.
      destruct (forwarded c) as [[lvl msg] |] eqn:Hf; [| discriminate].
      cbn [mbind option_bind] in Hstep. rewrite Hsg in Hstep.
      exists c, lvl, msg. split; [reflexivity |]. split; [exact Hf |].
      unfold Zap.log in Hstep.
      change (Zap.enab (Zap.core (Zap.base (Zap.Sugar default_logger)))) with Zap.DebugLevel in Hstep.
      rewrite (forwarded_enabled _ _ _ Hf) in Hstep.
      destruct (Zap.terminal lvl); simplify_eq; reflexivity.
    + intros e He. destruct (inv_output _ HI e He) as (ins & Hin & ->).
      pose proof (ns_installs _ HN _ Hin) as ->.
      split; [reflexivity | exact (inv_built_installed _ HI Hin)].
    + intros Hex. apply no_deadlock; assumption.
  - intros programs s Hreach. pose proof (Inv_reachable _ _ Hreach) as HI.
    pose proof (inv_built _ HI) as Hb. pose proof (inv_runs _ HI) as Hr.
    destruct (st_initOnce s); lia.
  - intros programs schedule s Hrun.
    eapply run_bounded; [apply Inv_init | exact Hrun].
Qed.


(** C2.  In every reachable state the handle is the one assigned last, and
    the lazy default can only be the first assignment in the history: it is
    never assigned over a handle [Setup] installed, so once [Setup] has
    installed a handle the current handle is one installed by [Setup].  No
    statement of a leveled logging function changes [logger] or [sugar]
    once [sugar] is set; in particular the re-check inside the critical
    section goes straight to the unlock, without building anything. *)
Theorem Setup_wins programs s :
  reachable programs s ->
  st_sugar s = installed <$> head (installs s) /\
  (forall pre post,
      installs s = (pre ++ DefaultInstall :: post)%list -> post = []) /\
  (forall config,
      SetupInstall config ∈ installs s ->
      exists config',
        head (installs s) = Some (SetupInstall config') /\
        st_sugar s = Some (Zap.Sugar (setup_logger config'))) /\
  (forall i t s',
      threads s !! i = Some t -> inLeveled (pc t) = true ->
      tstep i s = Some s' -> is_Some (st_sugar s) ->
      st_sugar s' = st_sugar s /\ st_logger s' = st_logger s /\
      installs s' = installs s /\ defaultBuilt s' = defaultBuilt s) /\
  (forall i t s',
      threads s !! i = Some t -> pc t = EI_Recheck ->
      tstep i s = Some s' -> is_Some (st_sugar s) ->
      exists t', threads s' !! i = Some t' /\ pc t' = EI_Unlock).
Proof.
  intros Hreach. pose proof (Inv_reachable _ _ Hreach) as HI.
  pose proof (inv_sugar _ HI) as Hsugar.
  pose proof (inv_default_first _ HI) as Hfirst.
  split; [exact Hsugar |]. split; [exact Hfirst |].
  split; [| split].
  - intros config Hin.
    destruct (installs s) as [| ins inss] eqn:Ei; [by apply elem_of_nil in Hin |].
    destruct ins as [| config'].
    + specialize (Hfirst [] inss eq_refl). subst inss.
      apply elem_of_cons in Hin as [Hin | Hin]; [discriminate | by apply elem_of_nil in Hin].
    + exists config'. split; [reflexivity |]. rewrite Hsugar. reflexivity.
  - intros i t s' Hi Hpc Hstep Hset.
    pose proof (inv_threads _ HI _ _ Hi) as [_ _ _ _ _ Hnil Heis _ _ _ _ _ _].
    unfold tstep in Hstep. destruct (exited s); [discriminate |].
    rewrite Hi in Hstep. cbn [mbind option_bind] in Hstep.
    destruct (pc t); try discriminate Hpc;
      repeat match type of Hstep with
        | (?x ≫= _) = Some _ => destruct x as [[? ?] |] eqn:?; cbn [mbind option_bind] in Hstep
        | None = Some _ => discriminate Hstep
        | context [match ?x with _ => _ end] => destruct x eqn:?
        | context [if ?x then _ else _] => destruct x eqn:?
        | Some _ = Some _ => injection Hstep as <-
        end;
      try solve [repeat split; cbn; congruence].
    + destruct (Hnil eq_refl) as [E _]. rewrite E in Hset. by destruct Hset.
    + destruct (Heis eq_refl) as [E _]. rewrite E in Hset. by destruct Hset.
  - intros i t s' Hi Hpc Hstep [sg Hset].
    unfold tstep in Hstep. destruct (exited s); [discriminate |].
    rewrite Hi in Hstep. cbn [mbind option_bind] in Hstep.
    rewrite Hpc, Hset in Hstep. injection Hstep as <-.
    eexists. split.
    + cbn. apply list_lookup_insert_eq. eapply lookup_lt_Some. exact Hi.
    + reflexivity.
Qed.

(** C9.  [Setup] returns a nil error for every configuration, nil
    included, and every prior state; [Unsetup] returns a nil error and
    changes nothing.  On interleaved threads, everything [Setup] and
    [Unsetup] have returned is nil and no thread has faulted. *)
Theorem Setup_Unsetup_nil :
  (forall config g, (Setup config g).2 = None) /\
  (forall g, Unsetup g = (g, None)) /\
  (forall programs s,
      reachable programs s ->
      forall j t, threads s !! j = Some t ->
        Forall (fun e => e = None) (returned t) /\ pc t <> Fault).
Proof.
  split; [reflexivity |]. split; [reflexivity |].
  intros programs s Hreach j t Hj.
  pose proof (inv_threads _ (Inv_reachable _ _ Hreach) _ _ Hj) as Ht.
  split; [apply (ti_returned _ _ _ Ht) | apply (ti_nofault _ _ _ Ht)].
Qed.


End Temporal.

(** ** The locking discipline *)

Section Locking.

Context {ext : Collaborators}.

Ltac own HI :=
  match goal with
  | Hl : threads ?s !! ?i = Some ?ti |- _ =>
      let Hi := fresh "Hi" in
      pose proof (inv_threads _ HI _ _ Hl) as Hi;
      destruct Hi as [Hiw Hir Hio Hib Hih Hin Hie Hisu Hisc Hilc Hibu Hinf Hiret];
      reduce_all; facts;
      try match goal with
          | Hb : lock_free _ = true |- _ => apply lock_free_spec in Hb; destruct Hb
          end
  end.

(** X1.  [initMu] excludes: in every reachable state at most one thread is
    between a [Lock] and its [Unlock] (in the critical section of [Setup]
    or of the function passed to [initOnce.Do]), and while one is, no
    thread holds the read lock. *)
Theorem initMu_exclusive programs s i j ti tj :
  reachable programs s ->
  threads s !! i = Some ti -> threads s !! j = Some tj ->
  holdsW (pc ti) = true ->
  (holdsW (pc tj) = true -> i = j) /\ holdsR (pc tj) = false.
Proof.
  intros Hreach Hi Hj Hw. pose proof (Inv_reachable _ _ Hreach) as HI.
  apply (ti_writer _ _ _ (inv_threads _ HI _ _ Hi)) in Hw.
  split.
  - intros Hw'. apply (ti_writer _ _ _ (inv_threads _ HI _ _ Hj)) in Hw'. congruence.
  - destruct (holdsR (pc tj)) eqn:Hr; [| reflexivity].
    apply (ti_reader _ _ _ (inv_threads _ HI _ _ Hj)) in Hr.
    rewrite (inv_excl _ HI) in Hr by eauto. by apply elem_of_empty in Hr.
Qed.

(** X2.  [logger] and [sugar] are assigned only by the thread that holds
    [initMu] for writing, when no thread holds it for reading; so while a
    thread holds the read lock no step of another thread changes them.
    The two nil checks of [ensureInitialized] are made under the lock: the
    first under the read lock, with no writer, the re-check under the write
    lock. *)
Theorem handle_accessed_under_lock programs s i t :
  reachable programs s -> threads s !! i = Some t ->
  (forall s', tstep i s = Some s' ->
     st_logger s' <> st_logger s \/ st_sugar s' <> st_sugar s ->
     writer (st_initMu s) = Some i /\ readers (st_initMu s) = ∅) /\
  (forall j s', j <> i -> tstep j s = Some s' -> holdsR (pc t) = true ->
     st_logger s' = st_logger s /\ st_sugar s' = st_sugar s) /\
  (pc t = EI_FastCheck ->
     i ∈ readers (st_initMu s) /\ writer (st_initMu s) = None) /\
  (pc t = EI_Recheck -> writer (st_initMu s) = Some i).
Proof.
  intros Hreach Hi. pose proof (Inv_reachable _ _ Hreach) as HI.
  assert (Hch : forall k s', tstep k s = Some s' ->
            writer (st_initMu s) = Some k \/
            (st_logger s' = st_logger s /\ st_sugar s' = st_sugar s)).
  { intros k s' H. start H.
    all: own HI.
    all: solve [right; split; first [reflexivity | assumption] | left; assumption]. }
  split; [| split; [| split]].
  - intros s' H Hneq. destruct (Hch _ _ H) as [Hw | [El Es]].
    + split; [exact Hw |]. apply (inv_excl _ HI). eauto.
    + destruct Hneq; contradiction.
  - intros j s' Hne H Hr.
    apply (ti_reader _ _ _ (inv_threads _ HI _ _ Hi)) in Hr.
    destruct (Hch _ _ H) as [Hw | ?]; [exfalso | assumption].
    rewrite (inv_excl _ HI) in Hr by eauto. by apply elem_of_empty in Hr.
  - intros Hpc.
    assert (Hr : i ∈ readers (st_initMu s)).
    { apply (ti_reader _ _ _ (inv_threads _ HI _ _ Hi)). rewrite Hpc. reflexivity. }
    split; [exact Hr |].
    destruct (writer (st_initMu s)) eqn:Hw; [| reflexivity].
    rewrite (inv_excl _ HI) in Hr by eauto. by apply elem_of_empty in Hr.
  - intros Hpc. apply (ti_writer _ _ _ (inv_threads _ HI _ _ Hi)).
    rewrite Hpc. reflexivity.
Qed.



Lemma paired_step i s s' :
  tstep i s = Some s' ->
  ((forall j t, threads s !! j = Some t -> assigning (pc t) = false) ->
   st_sugar s = Zap.Sugar <$> st_logger s) ->
  (forall j t, threads s' !! j = Some t -> assigning (pc t) = false) ->
  st_sugar s' = Zap.Sugar <$> st_logger s'.
Proof.
  intros H. start H.
  all: intros IH Hno.
  all: try reflexivity.
  all: try (match goal with
            | Hl : threads ?s !! ?i = Some _ |- _ =>
                specialize (Hno i _ (list_lookup_insert_eq _ _ _ (lookup_lt_Some _ _ _ Hl)));
                discriminate Hno
            end).
  all: rew; try rewrite <- IH; try reflexivity.
  all: try match goal with E : st_sugar _ = _ |- _ => rewrite <- E end.
  all: try apply IH.
  all: match goal with
       | Hl : threads ?s !! ?i = Some _ |- forall j t, _ =>
           intros j t Hj; destruct (decide (j = i)) as [-> | Hne];
           [ simplify_eq; reflexivity
           | apply (Hno j t); rewrite list_lookup_insert_ne by congruence; exact Hj ]
       end.
Qed.

Lemma paired_run schedule s s' :
  run schedule s = Some s' ->
  ((forall j t, threads s !! j = Some t -> assigning (pc t) = false) ->
   st_sugar s = Zap.Sugar <$> st_logger s) ->
  (forall j t, threads s' !! j = Some t -> assigning (pc t) = false) ->
  st_sugar s' = Zap.Sugar <$> st_logger s'.
Proof.
  revert s. induction schedule as [| i schedule IH]; intros s H; cbn in H.
  - simplify_eq. auto.
  - destruct (tstep i s) as [s1 |] eqn:Hs; [| discriminate]. cbn in H.
    intros Hp. apply (IH s1 H). apply (paired_step i s s1 Hs Hp).
Qed.

(** X4.  [logger] and [sugar] go together: unless a thread stands between
    the assignment of [logger] and that of [sugar], [sugar] is
    [logger.Sugar()] (both nil before the first installation).  This holds
    whenever no thread holds [initMu] for writing, and so for every thread
    that holds it for reading. *)
Theorem handle_pair_consistent programs s :
  reachable programs s ->
  ((forall j t, threads s !! j = Some t -> assigning (pc t) = false) ->
   st_sugar s = Zap.Sugar <$> st_logger s) /\
  (writer (st_initMu s) = None -> st_sugar s = Zap.Sugar <$> st_logger s) /\
  (forall i t, threads s !! i = Some t -> holdsR (pc t) = true ->
               st_sugar s = Zap.Sugar <$> st_logger s).
Proof.
  intros Hreach. pose proof (Inv_reachable _ _ Hreach) as HI.
  destruct Hreach as [schedule Hrun].
  assert (Hp : (forall j t, threads s !! j = Some t -> assigning (pc t) = false) ->
               st_sugar s = Zap.Sugar <$> st_logger s).
  { apply (paired_run _ _ _ Hrun). intros _. reflexivity. }
  assert (Hw : writer (st_initMu s) = None -> st_sugar s = Zap.Sugar <$> st_logger s).
  { intros Hw. apply Hp. intros j t Hj.
    destruct (assigning (pc t)) eqn:Ha; [| reflexivity].
    apply assigning_holdsW in Ha.
    apply (ti_writer _ _ _ (inv_threads _ HI _ _ Hj)) in Ha. congruence. }
  split; [exact Hp |]. split; [exact Hw |].
  intros i t Hi Hr. apply Hw.
  apply (ti_reader _ _ _ (inv_threads _ HI _ _ Hi)) in Hr.
  destruct (writer (st_initMu s)) eqn:E; [| reflexivity].
  rewrite (inv_excl _ HI) in Hr by eauto. by apply elem_of_empty in Hr.
Qed.

Lemma tstep_wp_tstep i s s' : tstep_wp i s = Some s' -> tstep i s = Some s'.
Proof.
  unfold tstep_wp. destruct (threads s !! i) as [t |]; [| discriminate].
  cbn [mbind option_bind]. destruct (pc t); try auto.
  destruct (writerWaiting s); [discriminate | auto].
Qed.

Lemma run_wp_run schedule s s' : run_wp schedule s = Some s' -> run schedule s = Some s'.
Proof.
  revert s. induction schedule as [| i schedule IH]; intros s H; cbn in *.
  - exact H.
  - destruct (tstep_wp i s) as [s1 |] eqn:Hs; [| discriminate].
    rewrite (tstep_wp_tstep _ _ _ Hs). cbn in *. auto.
Qed.

Lemma tstep_wp_other i s s' t :
  threads s !! i = Some t -> pc t <> EI_RLock ->
  tstep i s = Some s' -> tstep_wp i s = Some s'.
Proof.
  intros Ht Hp H. unfold tstep_wp. rewrite Ht. cbn [mbind option_bind].
  destruct (pc t); try exact H. contradiction.
Qed.

Lemma tstep_wp_quiet i s s' :
  writerWaiting s = false -> tstep i s = Some s' -> tstep_wp i s = Some s'.
Proof.
  intros Hw H. unfold tstep_wp.
  destruct (threads s !! i) as [t |] eqn:Ht.
  - cbn [mbind option_bind]. rewrite Hw. destruct (pc t); exact H.
  - unfold tstep in H. rewrite Ht in H. destruct (exited s); discriminate.
Qed.

Lemma writerWaiting_thread s :
  writerWaiting s = true ->
  exists k t, threads s !! k = Some t /\ waitsW (pc t) = true.
Proof.
  unfold writerWaiting. intros H. apply existsb_exists in H as (t & Hin & Hw).
  apply list_elem_of_In, list_elem_of_lookup in Hin as [k Hk]. eauto.
Qed.

(** Unless the process has exited or every thread is done, some thread can
    move, also when waiting writers keep new readers out. *)
Lemma no_deadlock_wp s :
  Inv s -> exited s = None ->
  (forall j t, threads s !! j = Some t -> finished t = true) \/
  (exists i s', tstep_wp i s = Some s').
Proof.
  intros HI Hex.
  destruct (writerWaiting s) eqn:Hww.
  2: { destruct (no_deadlock s HI Hex) as [Hall | (i & s' & Hs)]; [by left | right].
       exists i, s'. by apply tstep_wp_quiet. }
  right. apply writerWaiting_thread in Hww as (w & tw & Hw & Hwait).
  assert (Hmove : forall k tk, threads s !! k = Some tk ->
            holdsW (pc tk) = true \/ holdsR (pc tk) = true ->
            (holdsR (pc tk) = true -> writer (st_initMu s) = None) ->
            exists s', tstep_wp k s = Some s').
  { intros k tk Hk Hhold Hr.
    destruct (tstep_enabled k s tk HI Hex Hk) as [s' Hs].
    - unfold finished. destruct (pc tk); destruct Hhold; try discriminate; reflexivity.
    - intros E. rewrite E in Hhold. destruct Hhold; discriminate.
    - intros [E | E]; rewrite E in Hhold; destruct Hhold; discriminate.
    - intros E. rewrite E in Hhold. destruct Hhold; discriminate.
    - exists s'. apply (tstep_wp_other k s s' tk Hk); [| exact Hs].
      intros E. rewrite E in Hhold. destruct Hhold; discriminate. }
  destruct (writer (st_initMu s)) as [k |] eqn:Hwr.
  { destruct (inv_writer_live _ HI k Hwr) as [tk Hk].
    pose proof (inv_threads _ HI _ _ Hk) as Htk.
    apply (ti_writer _ _ _ Htk) in Hwr as Hpc.
    exists k. apply (Hmove k tk Hk); [by left |].
    intros Hr. apply (ti_reader _ _ _ Htk) in Hr.
    rewrite (inv_excl _ HI) in Hr by eauto. by apply elem_of_empty in Hr. }
  destruct (decide (readers (st_initMu s) = ∅)) as [Hr | Hr].
  2: { apply set_choose_L in Hr as [k Hk'].
       destruct (inv_readers_live _ HI k Hk') as [tk Hk].
       pose proof (inv_threads _ HI _ _ Hk) as Htk.
       apply (ti_reader _ _ _ Htk) in Hk' as Hpc.
       exists k. apply (Hmove k tk Hk); [by right | auto]. }
  exists w.
  destruct (tstep_enabled w s tw HI Hex Hw) as [s' Hs].
  - unfold finished. destruct (pc tw); try discriminate Hwait; reflexivity.
  - intros E. rewrite E in Hwait. discriminate.
  - intros _. unfold lock_free. rewrite Hwr. apply bool_decide_eq_true. exact Hr.
  - intros E. rewrite E in Hwait. discriminate.
  - exists s'. apply (tstep_wp_other w s s' tw Hw); [| exact Hs].
    intros E. rewrite E in Hwait. discriminate.
Qed.

Lemma completion_bounded n s :
  Inv s -> (total s <= n)%nat ->
  exists schedule s',
    run_wp schedule s = Some s' /\
    (is_Some (exited s') \/
     forall j t, threads s' !! j = Some t -> finished t = true).
Proof.
  revert s. induction n as [| n IH]; intros s HI Hn.
  - destruct (exited s) as [code |] eqn:Hex.
    + exists [], s. split; [reflexivity |]. left. rewrite Hex. eauto.
    + destruct (no_deadlock_wp s HI Hex) as [Hall | (i & s1 & Hs)].
      * exists [], s. split; [reflexivity |]. right. exact Hall.
      * pose proof (tstep_decreases _ _ _ HI (tstep_wp_tstep _ _ _ Hs)). lia.
  - destruct (exited s) as [code |] eqn:Hex.
    + exists [], s. split; [reflexivity |]. left. rewrite Hex. eauto.
    + destruct (no_deadlock_wp s HI Hex) as [Hall | (i & s1 & Hs)].
      * exists [], s. split; [reflexivity |]. right. exact Hall.
      * pose proof (tstep_wp_tstep _ _ _ Hs) as Hs'.
        pose proof (tstep_decreases _ _ _ HI Hs').
        destruct (IH s1 (Inv_step _ _ _ HI Hs') ltac:(lia)) as (schedule & s' & Hrun & Hend).
        exists (i :: schedule), s'. split; [| exact Hend].
        cbn [run_wp]. rewrite Hs. exact Hrun.
Qed.

(** X5.  No interleaving of [Setup], [Unsetup] and the leveled logging
    functions gets stuck, also when a thread waiting in [Lock] keeps new
    readers out, as [sync.RWMutex] does.  In every reachable state of a
    process that has not exited, either every thread is done or some thread
    can take a step that is not an [RLock] while a thread waits at a
    [Lock]; from every reachable state some schedule of such steps, no
    longer than the statements left, leads to a state where the process has
    exited or every thread is done. *)
Theorem runs_to_completion programs s :
  reachable programs s ->
  (exited s = None ->
   (forall j t, threads s !! j = Some t -> finished t = true) \/
   (exists i s', tstep_wp i s = Some s')) /\
  (exists schedule s',
     run_wp schedule s = Some s' /\
     (length schedule <= total s)%nat /\
     (is_Some (exited s') \/
      forall j t, threads s' !! j = Some t -> finished t = true)) /\
  (forall schedule s', run_wp schedule s = Some s' -> run schedule s = Some s').
Proof.
  intros Hreach. pose proof (Inv_reachable _ _ Hreach) as HI.
  split; [intros Hex; exact (no_deadlock_wp s HI Hex) |].
  split; [| intros schedule s'; apply run_wp_run].
  destruct (completion_bounded (total s) s HI (Nat.le_refl _))
    as (schedule & s' & Hrun & Hend).
  exists schedule, s'. split; [exact Hrun |]. split; [| exact Hend].
  pose proof (run_bounded _ _ _ HI (run_wp_run _ _ _ Hrun)). lia.
Qed.

Lemma installed_step i s s' :
  Inv s -> tstep i s = Some s' -> is_Some (st_sugar s) ->
  is_Some (st_sugar s') /\ defaultBuilt s' = defaultBuilt s /\
  (installs s' = installs s \/ exists c, installs s' = SetupInstall c :: installs s).
Proof.
  intros HI H Hset. start H.
  all: own HI.
  all: rew.
  all: try (destruct Hset; discriminate).
  all: try solve [repeat split; auto].
  all: split; [cbn; eauto |]; split; [reflexivity |]; right; eauto.
Qed.

(** X6.  A handle is never taken away: once [sugar] is set it stays set
    (and [logger] with it) in every continuation, whatever is called,
    [Unsetup] included; the default logger is not built after that, and
    every later installation is one by [Setup]. *)
Theorem handle_never_reset programs s schedule s' :
  reachable programs s -> run schedule s = Some s' -> is_Some (st_sugar s) ->
  is_Some (st_sugar s') /\ is_Some (st_logger s') /\
  defaultBuilt s' = defaultBuilt s /\
  exists new, installs s' = (new ++ installs s)%list /\
              forallb isSetupInstall new = true.
Proof.
  intros Hreach. pose proof (Inv_reachable _ _ Hreach) as HI. clear Hreach.
  revert s HI. induction schedule as [| i schedule IH]; intros s HI Hrun Hset; cbn in Hrun.
  - simplify_eq. split; [exact Hset |]. split; [exact (inv_logger _ HI Hset) |].
    split; [reflexivity |]. exists []. split; reflexivity.
  - destruct (tstep i s) as [s1 |] eqn:Hs; [| discriminate]. cbn in Hrun.
    destruct (installed_step _ _ _ HI Hs Hset) as (Hset1 & Hb1 & Hi1).
    destruct (IH s1 (Inv_step _ _ _ HI Hs) Hrun Hset1) as (? & ? & Hb & new & Hnew & Hall).
    split; [assumption |]. split; [assumption |]. split; [congruence |].
    destruct Hi1 as [E | [c E]]; rewrite E in Hnew.
    + exists new. auto.
    + exists (new ++ [SetupInstall c])%list. split.
      * rewrite <- app_assoc. exact Hnew.
      * rewrite forallb_app, Hall. reflexivity.
Qed.




End Locking.

(** ** What is written *)

Section Output.

Context {ext : Collaborators}.

Lemma written_by_same j (s s' : State) :
  output s' = output s -> written_by j s' = written_by j s.
Proof. unfold written_by. intros ->. reflexivity. Qed.

Lemma written_by_cons j (s s' : State) e :
  output s' = e :: output s ->
  written_by j s' =
  ((if decide (by_thread e = j) then [entry e] else []) ++ written_by j s)%list.
Proof.
  unfold written_by. intros ->. rewrite filter_cons.
  destruct (decide (by_thread e = j)); reflexivity.
Qed.

(** The entries written, after a step from [s]. *)
Ltac written s :=
  repeat match goal with
    | |- context [written_by ?j ?s'] =>
        lazymatch s' with
        | s => fail
        | _ => first [ rewrite (written_by_same j s s') by reflexivity
                     | erewrite (written_by_cons j s s') by reflexivity ]
        end
    end;
  cbn [by_thread entry].

Lemma Traced_init programs : Traced programs (init programs).
Proof.
  constructor; cbn.
  - intros j t Ht. apply list_lookup_fmap_Some in Ht as (cs & -> & Hcs).
    exists []. split; [exact Hcs | apply sublist_nil_l].
  - intros e []%elem_of_nil.
Qed.

Lemma Exact_init programs : Exact programs (init programs).
Proof.
  intros j t Ht. cbn in Ht. apply list_lookup_fmap_Some in Ht as (cs & -> & Hcs).
  exists []. split; [exact Hcs | reflexivity].
Qed.

Lemma past_tail (past cs : list Call) :
  exists c', (past ++ cs = (past ++ c') ++ tail cs)%list.
Proof.
  destruct cs as [| c cs]; cbn [tail].
  - exists []. rewrite !app_nil_r. reflexivity.
  - exists [c]. rewrite <- app_assoc. reflexivity.
Qed.

Lemma log_entry sg lvl msg e a :
  Zap.log sg lvl msg = (Some e, a) ->
  e = {| Zap.EntryLevel := lvl; Zap.EntryMessage := msg |} /\
  Zap.Enabled (Zap.enab (Zap.core (Zap.base sg))) lvl = true.
Proof.
  unfold Zap.log. destruct (Zap.Enabled _ _); intros H; simplify_eq. auto.
Qed.

Lemma head_forwarded (cs : list Call) lvl msg :
  head cs ≫= forwarded = Some (lvl, msg) ->
  exists c cs', cs = c :: cs' /\ forwarded c = Some (lvl, msg).
Proof. destruct cs as [| c cs']; [discriminate |]. cbn. eauto. Qed.

Lemma entries_more (l : list Zap.Entry) past cs :
  l `sublist_of` forwarded_entries past ->
  l `sublist_of` forwarded_entries (past ++ cs).
Proof.
  intros H. unfold forwarded_entries. rewrite omap_app.
  by apply sublist_inserts_r.
Qed.

Lemma entries_snoc past c lvl msg :
  forwarded c = Some (lvl, msg) ->
  forwarded_entries (past ++ [c])
  = (forwarded_entries past
     ++ [{| Zap.EntryLevel := lvl; Zap.EntryMessage := msg |}])%list.
Proof.
  intros H. unfold forwarded_entries. rewrite omap_app. cbn.
  unfold entry_of. rewrite H. reflexivity.
Qed.

Lemma entries_written (l : list Zap.Entry) past c lvl msg :
  forwarded c = Some (lvl, msg) ->
  l `sublist_of` forwarded_entries past ->
  (l ++ [{| Zap.EntryLevel := lvl; Zap.EntryMessage := msg |}])%list
    `sublist_of` forwarded_entries (past ++ [c]).
Proof.
  intros Hf H. rewrite (entries_snoc _ _ _ _ Hf). by apply sublist_app.
Qed.

Lemma entries_silent past c :
  forwarded c = None -> forwarded_entries (past ++ [c]) = forwarded_entries past.
Proof.
  intros H. unfold forwarded_entries. rewrite omap_app. cbn.
  unfold entry_of. rewrite H. cbn. apply app_nil_r.
Qed.

Lemma Traced_step programs i s s' :
  Traced programs s -> tstep i s = Some s' -> Traced programs s'.
Proof.
  intros [Hc Ho] H. start H.
  all: match goal with
       | Hl : threads ?s !! ?i = Some _ |- _ =>
           destruct (Hc _ _ Hl) as (past & Hprog & Hsub);
           unfold made in Hsub; cbn [calls pc ended] in Hprog, Hsub
       end.
  all: repeat match goal with
       | Hlog : Zap.log _ _ _ = (Some _, _) |- _ =>
           apply log_entry in Hlog; destruct Hlog as [-> ?]
       | Hh : head _ ≫= forwarded = Some _ |- _ =>
           apply head_forwarded in Hh; destruct Hh as (c0 & cs0 & -> & ?)
       end.
  all: constructor; reduce.
  (* the threads *)
  all: try match goal with
       | Hl : threads ?s !! ?i = Some _ |- forall j t, _ !! j = Some t -> _ =>
           intros j t Hj; destruct (decide (j = i)) as [-> | Hne];
           [ rewrite list_lookup_insert_eq in Hj by (eapply lookup_lt_Some; exact Hl);
             injection Hj as <-; unfold made; cbn [calls pc ended tail]
           | rewrite list_lookup_insert_ne in Hj by congruence;
             destruct (Hc _ _ Hj) as (past' & ? & ?); exists past' ]
       end.
  all: match goal with Hl : threads ?s !! _ = Some _ |- _ => written s end.
  all: repeat match goal with
       | |- context [decide (?a = ?b)] =>
           destruct (decide (a = b)) as [? | ?]; try congruence
       end.
  all: cbn [app rev].
  all: try solve [split; assumption].
  all: try solve [exists past; split; assumption].
  all: try solve [
    match goal with
    | Hp : _ = Some (?d ++ ?c :: ?cs)%list |- _ =>
        exists (d ++ [c])%list; rewrite <- app_assoc; split; [exact Hp |];
        first [ eapply entries_written; eassumption
              | apply entries_more; assumption ]
    end ].
  all: try solve [
    match goal with
    | Hp : _ = Some (?d ++ ?c :: ?cs)%list |- _ =>
        exists d; split; [exact Hp |];
        first [ eapply entries_written; eassumption
              | apply entries_more; assumption ]
    end ].
  all: try solve [
    match goal with
    | Hp : _ = Some (?d ++ ?cs)%list |- _ =>
        destruct (past_tail d cs) as (c' & Ed);
        exists (d ++ c')%list; rewrite <- Ed; split; [exact Hp |];
        apply entries_more; assumption
    end ].
  (* the entries *)
  all: try assumption.
  all: intros em [-> | He]%elem_of_cons; [| auto].
  all: assumption.
Qed.

Lemma Traced_run programs schedule s s' :
  Traced programs s -> run schedule s = Some s' -> Traced programs s'.
Proof.
  revert s. induction schedule as [| i schedule IH]; intros s HI H; cbn in H.
  - congruence.
  - destruct (tstep i s) as [s1 |] eqn:Hs; [| discriminate].
    cbn in H. eapply IH; [| exact H]. eapply Traced_step; eauto.
Qed.

Lemma Exact_step programs i s s' :
  Inv s -> NoSetup s -> Exact programs s -> tstep i s = Some s' ->
  Exact programs s'.
Proof.
  intros HI HN Hc H.
  assert (Hdef : is_Some (st_sugar s) -> st_sugar s = Some (Zap.Sugar default_logger)).
  { intros Hs. apply (NoSetup_handle s HI HN Hs). }
  pose proof (ns_calls _ HN) as Hnc. pose proof (ns_pc _ HN) as Hnp.
  start H.
  all: match goal with
       | Hl : threads ?s !! ?i = Some _ |- _ =>
           destruct (Hc _ _ Hl) as (past & Hprog & Hsub);
           unfold made in Hsub; cbn [calls pc ended] in Hprog, Hsub;
           pose proof (Hnc _ _ Hl) as Hci; pose proof (Hnp _ _ Hl) as Hpi;
           cbn in Hci, Hpi; try discriminate
       end.
  all: repeat match goal with
       | Hh : head _ ≫= forwarded = Some _ |- _ =>
           apply head_forwarded in Hh; destruct Hh as (c0 & cs0 & -> & ?)
       | Hd : is_Some (Some ?x) -> _ |- _ =>
           let Hx := fresh in
           assert (Hx : is_Some (Some x)) by eauto;
           apply Hd in Hx; clear Hd; injection Hx as ->
       end.
  all: try match goal with
       | Hlog : Zap.log _ ?lvl _ = _, Hf : forwarded _ = Some (?lvl, _) |- _ =>
           unfold Zap.log in Hlog;
           change (Zap.enab (Zap.core (Zap.base (Zap.Sugar default_logger))))
             with Zap.DebugLevel in Hlog;
           rewrite (forwarded_enabled _ _ _ Hf) in Hlog;
           first [discriminate Hlog | injection Hlog as <- ?]
       end.
  all: try discriminate.
  all: unfold Exact in *; reduce.
  all: match goal with
       | Hl : threads ?s !! ?i = Some _ |- forall j t, _ !! j = Some t -> _ =>
           intros j t Hj; destruct (decide (j = i)) as [-> | Hne];
           [ rewrite list_lookup_insert_eq in Hj by (eapply lookup_lt_Some; exact Hl);
             injection Hj as <-; unfold made; cbn [calls pc ended tail]
           | rewrite list_lookup_insert_ne in Hj by congruence;
             destruct (Hc _ _ Hj) as (past' & ? & ?); exists past' ]
       end.
  all: match goal with Hl : threads ?s !! _ = Some _ |- _ => written s end.
  all: repeat match goal with
       | |- context [decide (?a = ?b)] =>
           destruct (decide (a = b)) as [? | ?]; try congruence
       end.
  all: cbn [app rev].
  all: try solve [split; assumption].
  all: try solve [exists past; split; assumption].
  all: try solve [
    match goal with
    | Hp : _ = Some (?d ++ ?c :: ?cs)%list |- _ =>
        exists (d ++ [c])%list; rewrite <- app_assoc;
        split; [exact Hp |];
        first [ erewrite entries_snoc by eassumption; rewrite Hsub; reflexivity
              | rewrite entries_silent by reflexivity; assumption ]
    end ].
  all: match goal with
       | Hp : _ = Some (?d ++ ?c :: ?cs)%list |- _ =>
           exists d; split; [exact Hp |];
           erewrite entries_snoc by eassumption; rewrite Hsub; reflexivity
       end.
Qed.

Lemma Exact_run programs schedule s s' :
  Inv s -> NoSetup s -> Exact programs s -> run schedule s = Some s' ->
  Exact programs s'.
Proof.
  revert s. induction schedule as [| i schedule IH]; intros s HI HN HE H; cbn in H.
  - simplify_eq. assumption.
  - destruct (tstep i s) as [s1 |] eqn:Hs; [| discriminate].
    cbn in H. eapply IH; [| | | exact H].
    + eapply Inv_step; eauto.
    + eapply NoSetup_step; eauto.
    + eapply Exact_step; eauto.
Qed.

(** X8.  What a thread has written is, in order, among the entries of
    the calls it made: every thread makes the calls of its program in
    order; each call writes at most one entry, with the level of the
    function called and the message of its arguments; no entry is written
    twice, out of order or for a call that was not made.  Every entry was
    let through by the threshold of the handle it was written through, and
    that handle is one that was installed. *)
Theorem output_traces_calls programs s :
  reachable programs s ->
  (forall j t prog,
     threads s !! j = Some t -> programs !! j = Some prog ->
     exists past,
       prog = (past ++ calls t)%list /\
       rev (written_by j s) `sublist_of` forwarded_entries (made t past)) /\
  (forall e, e ∈ output s ->
     Zap.Enabled (Zap.enab (Zap.core (Zap.base (via e))))
                 (Zap.EntryLevel (entry e)) = true /\
     exists ins, ins ∈ installs s /\ via e = installed ins).
Proof.
  intros Hreach. pose proof (Inv_reachable _ _ Hreach) as HI.
  destruct Hreach as [schedule Hrun].
  pose proof (Traced_run _ _ _ _ (Traced_init programs) Hrun) as [Hc Ho].
  split.
  - intros j t prog Hj Hp. destruct (Hc j t Hj) as (past & Hp' & Hsub).
    rewrite Hp in Hp'. injection Hp' as ->. eauto.
  - intros e He. split; [exact (Ho e He) | exact (inv_output _ HI e He)].
Qed.

(** X9.  In a process that never calls [Setup] nothing is filtered and
    nothing is lost: in every reachable state, what a thread has written
    is exactly, in order, the entries of the leveled logging functions it
    has returned from or that ended it. *)
Theorem default_output_exact programs s :
  no_Setup_calls programs -> reachable programs s ->
  forall j t prog,
    threads s !! j = Some t -> programs !! j = Some prog ->
    exists past,
      prog = (past ++ calls t)%list /\
      rev (written_by j s) = forwarded_entries (made t past).
Proof.
  intros Hn [schedule Hrun] j t prog Hj Hp.
  pose proof (Exact_run _ _ _ _ (Inv_init programs) (NoSetup_init programs Hn)
                (Exact_init programs) Hrun) as HE.
  destruct (HE j t Hj) as (past & Hp' & Heq).
  rewrite Hp in Hp'. injection Hp' as ->. eauto.
Qed.

End Output.

(** ** How the process exits *)

Section Exit.

Context {ext : Collaborators}.







End Exit.

(** ** One thread: Setup, the level names, and the earlier version *)

Section Sequential.

Context {ext : Collaborators}.

(** X10.  After [Setup], a leveled logging function leaves the package
    variables as they are and forwards to the handle [Setup] installed: its
    entry is written exactly when its level is at least the threshold
    [Setup] resolved, and the call ends as zap ends an entry of its level,
    written or not. *)
Theorem Setup_then_log (config : option Config) (g : Globals) (c : Call) lvl msg :
  forwarded c = Some (lvl, msg) ->
  exists th,
    threshold (Setup config g).1 = Some th /\
    call c (Setup config g).1 =
    ((Setup config g).1,
     Log (Logged (Zap.Sugar (setup_logger config))
            (if th <=? lvl
             then Some {| Zap.EntryLevel := lvl; Zap.EntryMessage := msg |}
             else None)
            (Zap.terminal lvl))).
Proof.
  intros Hf. exists (Zap.enab (Setup_core config)).
  rewrite Setup_installs. cbn [fst].
  split; [reflexivity |].
  rewrite (call_leveled _ _ _ _ Hf). cbn [ensureInitialized sugar].
  unfold forward, Zap.log, Zap.Enabled. cbn [sugar].
  change (Zap.enab (Zap.core (Zap.base (Zap.Sugar (setup_logger config)))))
    with (Zap.enab (Setup_core config)).
  destruct (Zap.enab (Setup_core config) <=? lvl); reflexivity.
Qed.

(** X11.  The earlier version of the package differs from the current
    one by the guard alone.  [Setup] and [Unsetup] install and return the
    same; with a handle installed, every exported function does the same
    and leaves the same handles; with no handle, every leveled logging
    function of the earlier version dereferences the nil [sugar], where the
    current one builds the default logger and forwards to it. *)
Theorem Legacy_differs_by_the_guard :
  (forall config g,
      Legacy.Setup config (shared g)
      = (shared (Setup config g).1, (Setup config g).2)) /\
  (forall g, Legacy.Unsetup (shared g) = (shared (Unsetup g).1, (Unsetup g).2)) /\
  (forall c g,
      is_Some (sugar g) ->
      Legacy.call c (shared g) = (shared (call c g).1, (call c g).2)) /\
  (forall c lvl msg lg,
      forwarded c = Some (lvl, msg) ->
      Legacy.call c {| Legacy.logger := lg; Legacy.sugar := None |}
      = ({| Legacy.logger := lg; Legacy.sugar := None |}, Log NilDereference)) /\
  (forall c lvl msg lg,
      forwarded c = Some (lvl, msg) ->
      exists e a,
        (call c {| logger := lg; sugar := None; initOnce := false |}).2
        = Log (Logged (Zap.Sugar default_logger) e a)).
Proof.
  split; [reflexivity |]. split; [reflexivity |]. split; [| split].
  - intros c [lg sg once] [s Hs]. cbn in Hs. subst sg.
    destruct c; reflexivity.
  - intros c lvl msg lg Hf. destruct c; try discriminate Hf; reflexivity.
  - intros c lvl msg lg Hf. rewrite (call_leveled _ _ _ _ Hf).
    rewrite ensureInitialized_builds. unfold forward. cbn [snd sugar].
    destruct (Zap.log _ _ _) as [e a]. eauto.
Qed.

(** Lowering and comparing with a lower-case name is comparing up to case. *)
Lemma eqb_lower_sameFold s name :
  GoStrings.allASCII s = true -> GoStrings.allASCII name = true ->
  GoStrings.mapBytes GoStrings.lowerByte name = name ->
  String.eqb (GoStrings.mapBytes GoStrings.lowerByte s) name
  = GoStrings.sameFold s name.
Proof.
  revert name. induction s as [| c s IH]; intros [| d name] Hs Hn Hl;
    try reflexivity.
  cbn [GoStrings.allASCII] in Hs, Hn.
  apply andb_true_iff in Hs as [Hc Hs]. apply andb_true_iff in Hn as [Hd Hn].
  cbn [GoStrings.mapBytes] in Hl. injection Hl as Hld Hl.
  cbn [GoStrings.mapBytes GoStrings.sameFold String.eqb].
  rewrite Hc, Hd, Hld, (IH name Hs Hn Hl), !andb_true_r. reflexivity.
Qed.

(** X12.  Only the seven level names select a threshold: for a level
    string of ASCII bytes, [Setup] resolves the threshold of the level name
    the string equals up to the case of its letters, and debug when there
    is none.  Nothing is trimmed and no other spelling is accepted: a
    threshold other than debug means that the string is one of the names up
    to case. *)
Theorem Setup_level_lookup (c : Config) (g : Globals) :
  GoStrings.allASCII (Level c) = true ->
  threshold (Setup (Some c) g).1 = Some (lookup_fold (Level c) level_names) /\
  (forall lvl,
      threshold (Setup (Some c) g).1 = Some lvl -> lvl <> Zap.DebugLevel ->
      exists name, In (name, lvl) level_names /\
                   GoStrings.sameFold (Level c) name = true).
Proof.
  intros Hascii.
  assert (E : threshold (Setup (Some c) g).1 = Some (lookup_fold (Level c) level_names)).
  { rewrite Setup_installs. unfold threshold.
    cbn [fst logger fmap option_fmap option_map]. rewrite setup_logger_core.
    f_equal. unfold Setup_core. cbn [Zap.enab].
    destruct (String.eqb_spec (Level c) "") as [-> | _]; [reflexivity |].
    cbn [negb]. unfold GoStrings.ToLower. rewrite Hascii.
    rewrite !(eqb_lower_sameFold (Level c)) by (assumption || reflexivity).
    cbn [lookup_fold level_names].
    repeat match goal with
           | |- context [GoStrings.sameFold ?s ?n] =>
               destruct (GoStrings.sameFold s n)
           end; reflexivity. }
  split; [exact E |].
  intros lvl Hth Hne. rewrite E in Hth. injection Hth as <-.
  revert Hne. cbn [lookup_fold level_names].
  repeat match goal with
         | |- context [GoStrings.sameFold ?s ?n] =>
             destruct (GoStrings.sameFold s n) eqn:?;
             [intros _; eexists; split; [| eassumption]; cbn; tauto |]
         end.
  intros H. contradiction H. reflexivity.
Qed.

End Sequential.

(** ** The slice of the caller encoder *)

(** A string has no ['/'], or it is cut at its first one. *)
Lemma first_sep (s : string) :
  GoStrings.hasByte "/" s = false \/
  exists pre rest, s = pre +:+ String "/" rest /\ GoStrings.hasByte "/" pre = false.
Proof.
  induction s as [| c s IH]; [left; reflexivity |].
  cbn [GoStrings.hasByte].
  destruct (Ascii.eqb_spec c "/") as [-> | Hc].
  - right. exists "", s. split; reflexivity.
  - destruct IH as [IH | (pre & rest & -> & Hpre)].
    + left. exact IH.
    + right. exists (String c pre), rest. split; [reflexivity |].
      cbn [GoStrings.hasByte]. destruct (Ascii.eqb_spec c "/"); [contradiction | exact Hpre].
Qed.

Lemma len_append_sep pre rest :
  GoStrings.len (pre +:+ String "/" rest) = GoStrings.len pre + 1 + GoStrings.len rest.
Proof.
  unfold GoStrings.len. rewrite length_append_s. cbn [String.length]. lia.
Qed.

(** X16.  The slice expression of the caller encoder is always in range.
    For every trimmed path, either it has no ['/'], [strings.Index] gives
    [-1] and the path is appended as it is; or the index [idx] of its first
    ['/'] satisfies [0 <= idx+1 <= len], so [callerPath[idx+1:]] cannot
    fail, and what is appended is the rest of the path after that ['/'], of
    length [len - (idx+1)] (the empty string when the path ends there). *)
Theorem EncodeCaller_slice_in_range (caller : Zap.EntryCaller) (enc : Zap.PrimitiveArrayEncoder) :
  (GoStrings.Index (Zap.TrimmedPath caller) "/" = -1 /\
   GoStrings.hasByte "/" (Zap.TrimmedPath caller) = false /\
   EncodeCaller caller enc = (enc ++ [Zap.TrimmedPath caller])%list) \/
  (0 <= GoStrings.Index (Zap.TrimmedPath caller) "/" + 1
     <= GoStrings.len (Zap.TrimmedPath caller) /\
   exists pre rest,
     Zap.TrimmedPath caller = pre +:+ String "/" rest /\
     GoStrings.hasByte "/" pre = false /\
     GoStrings.Index (Zap.TrimmedPath caller) "/" = GoStrings.len pre /\
     GoStrings.len rest
     = GoStrings.len (Zap.TrimmedPath caller)
       - (GoStrings.Index (Zap.TrimmedPath caller) "/" + 1) /\
     EncodeCaller caller enc = (enc ++ [rest])%list).
Proof.
  destruct (first_sep (Zap.TrimmedPath caller)) as [Hno | (pre & rest & Hpath & Hpre)].
  - left. split; [exact (Index_sep_absent _ Hno) |]. split; [exact Hno |].
    unfold EncodeCaller, Zap.AppendString. rewrite (Index_sep_absent _ Hno). reflexivity.
  - right. rewrite Hpath, (Index_sep_first _ _ Hpre), len_append_sep.
    assert (0 <= GoStrings.len pre) by (unfold GoStrings.len; lia).
    assert (0 <= GoStrings.len rest) by (unfold GoStrings.len; lia).
    split; [lia |]. exists pre, rest.
    split; [reflexivity |]. split; [exact Hpre |]. split; [reflexivity |].
    split; [lia |].
    unfold EncodeCaller, Zap.AppendString.
    rewrite Hpath, (Index_sep_first _ _ Hpre), drop_past_sep.
    destruct (Z.eqb_spec (GoStrings.len pre) (-1)) as [E | _]; [lia | reflexivity].
Qed.

(** ** Order of the encoded times *)

Lemma compare_refl_s (a : string) : String.compare a a = Eq.
Proof.
  induction a as [| x a IH]; [reflexivity |].
  cbn [String.compare]. unfold Ascii.compare. rewrite N.compare_refl. exact IH.
Qed.

Lemma compare_app (a a' b b' : string) :
  String.length a = String.length a' ->
  String.compare (a +:+ b) (a' +:+ b') =
  match String.compare a a' with
  | Eq => String.compare b b'
  | c => c
  end.
Proof.
  revert a'. induction a as [| x a IH]; intros [| x' a'] Hlen; try discriminate Hlen.
  - reflexivity.
  - rewrite !append_cons_l. cbn [String.compare].
    destruct (Ascii.compare x x'); [| reflexivity ..].
    apply IH. cbn in Hlen. lia.
Qed.

Lemma compare_digit a b :
  0 <= a < 10 -> 0 <= b < 10 ->
  Ascii.compare (GoTime.digit a) (GoTime.digit b) = (a ?= b).
Proof.
  intros Ha Hb.
  assert (Ca : a = 0 \/ a = 1 \/ a = 2 \/ a = 3 \/ a = 4 \/ a = 5 \/ a = 6 \/
               a = 7 \/ a = 8 \/ a = 9) by lia.
  assert (Cb : b = 0 \/ b = 1 \/ b = 2 \/ b = 3 \/ b = 4 \/ b = 5 \/ b = 6 \/
               b = 7 \/ b = 8 \/ b = 9) by lia.
  repeat destruct Ca as [-> | Ca]; try rewrite Ca;
    repeat destruct Cb as [-> | Cb]; try rewrite Cb; reflexivity.
Qed.

Lemma compare_by_digits n m :
  0 <= n -> 0 <= m ->
  match n / 10 ?= m / 10 with
  | Eq => n mod 10 ?= m mod 10
  | c => c
  end = (n ?= m).
Proof.
  intros Hn Hm.
  pose proof (Z.div_mod n 10 ltac:(lia)).
  pose proof (Z.div_mod m 10 ltac:(lia)).
  pose proof (Z.mod_pos_bound n 10 ltac:(lia)).
  pose proof (Z.mod_pos_bound m 10 ltac:(lia)).
  destruct (Z.compare_spec (n / 10) (m / 10));
    destruct (Z.compare_spec (n mod 10) (m mod 10));
    destruct (Z.compare_spec n m); try reflexivity; lia.
Qed.

(** Numerals of the same width compare as the numbers. *)
Lemma compare_decimal k n m :
  0 <= n < 10 ^ Z.of_nat k -> 0 <= m < 10 ^ Z.of_nat k ->
  String.compare (decimal k n) (decimal k m) = (n ?= m).
Proof.
  revert n m. induction k as [| k IH]; intros n m Hn Hm.
  - change (10 ^ Z.of_nat 0) with 1 in *.
    replace n with 0 by lia. replace m with 0 by lia. reflexivity.
  - cbn [decimal]. rewrite compare_app by (rewrite !length_decimal; reflexivity).
    replace (Z.of_nat (S k)) with (Z.succ (Z.of_nat k)) in * by lia.
    rewrite Z.pow_succ_r in * by lia.
    rewrite IH.
    + cbn [String.compare]. rewrite compare_digit by (apply Z.mod_pos_bound; lia).
      rewrite <- (compare_by_digits n m) by lia.
      destruct (n / 10 ?= m / 10); [| reflexivity ..].
      destruct (n mod 10 ?= m mod 10); reflexivity.
    + split; [apply Z.div_pos; lia | apply Z.div_lt_upper_bound; lia].
    + split; [apply Z.div_pos; lia | apply Z.div_lt_upper_bound; lia].
Qed.

Lemma compare_field k n m (r r' : string) :
  0 <= n < 10 ^ Z.of_nat k -> 0 <= m < 10 ^ Z.of_nat k ->
  String.compare (decimal k n +:+ r) (decimal k m +:+ r') =
  match n ?= m with
  | Eq => String.compare r r'
  | c => c
  end.
Proof.
  intros Hn Hm. rewrite compare_app by (rewrite !length_decimal; reflexivity).
  rewrite compare_decimal by assumption. reflexivity.
Qed.

Lemma compare_sep (x : ascii) (r r' : string) :
  String.compare (String x "" +:+ r) (String x "" +:+ r') = String.compare r r'.
Proof. rewrite compare_app by reflexivity. rewrite compare_refl_s. reflexivity. Qed.

Lemma millis_range ns : 0 <= ns <= 999999999 -> 0 <= ns / 1000000 < 10 ^ Z.of_nat 3.
Proof.
  intros H. split; [apply Z.div_pos; lia |].
  apply Z.div_lt_upper_bound; [lia |]. change (10 ^ Z.of_nat 3) with 1000. lia.
Qed.

(** The text of the time encoder, for a year of at most four digits. *)
Lemma EncodeTime_text t enc :
  GoTime.valid t -> 0 <= GoTime.Year t <= 9999 ->
  EncodeTime t enc = (enc ++ [time_text t])%list.
Proof.
  intros (Hmo & Hd & _ & Hh & Hmi & Hs & Hns) Hy.
  unfold EncodeTime, Zap.AppendString. f_equal. f_equal.
  rewrite Format_layout_fields, appendNano_millis by exact Hns.
  change 4 with (Z.of_nat 4). change 2 with (Z.of_nat 2).
  rewrite !appendInt_decimal by (first [lia | cbn; lia]).
  unfold time_text. rewrite append_empty_l, !append_assoc_s. reflexivity.
Qed.

Lemma time_text_compare t1 t2 :
  GoTime.valid t1 -> GoTime.valid t2 ->
  0 <= GoTime.Year t1 <= 9999 -> 0 <= GoTime.Year t2 <= 9999 ->
  String.compare (time_text t1) (time_text t2) = lex_compare (stamp t1) (stamp t2).
Proof.
  intros (Hmo1 & Hd1 & _ & Hh1 & Hmi1 & Hs1 & Hns1)
         (Hmo2 & Hd2 & _ & Hh2 & Hmi2 & Hs2 & Hns2) Hy1 Hy2.
  unfold time_text, stamp. cbn [lex_compare].
  pose proof (millis_range _ Hns1). pose proof (millis_range _ Hns2).
  change " " with (String " " "" ). change ":" with (String ":" "").
  change "." with (String "." "").
  rewrite <- (append_empty_r (decimal 3 (GoTime.Nanosecond t1 / 1000000))).
  rewrite <- (append_empty_r (decimal 3 (GoTime.Nanosecond t2 / 1000000))).
  repeat first [ rewrite compare_sep
               | rewrite compare_field by (first [assumption | cbn; lia]) ].
  cbn [String.compare].
  repeat match goal with
         | |- context [?a ?= ?b] => destruct (a ?= b)
         end; reflexivity.
Qed.

(** X13.  Encoded times sort as the times do.  For two times with years
    between 0 and 9999, the texts the time encoder appends compare, byte
    by byte, as year, month, day, hour, minute, second and millisecond
    compare in this order; the texts are equal exactly when the times agree
    up to the millisecond. *)
Theorem EncodeTime_order (t1 t2 : GoTime.Time) (enc : Zap.PrimitiveArrayEncoder) :
  GoTime.valid t1 -> GoTime.valid t2 ->
  0 <= GoTime.Year t1 <= 9999 -> 0 <= GoTime.Year t2 <= 9999 ->
  exists x1 x2,
    EncodeTime t1 enc = (enc ++ [x1])%list /\
    EncodeTime t2 enc = (enc ++ [x2])%list /\
    String.compare x1 x2 = lex_compare (stamp t1) (stamp t2) /\
    (x1 = x2 <-> stamp t1 = stamp t2).
Proof.
  intros Hv1 Hv2 Hy1 Hy2. exists (time_text t1), (time_text t2).
  split; [apply EncodeTime_text; assumption |].
  split; [apply EncodeTime_text; assumption |].
  pose proof (time_text_compare t1 t2 Hv1 Hv2 Hy1 Hy2) as Hc.
  split; [exact Hc |].
  assert (Heq : time_text t1 = time_text t2 <->
                lex_compare (stamp t1) (stamp t2) = Eq).
  { rewrite <- Hc. split; [intros ->; apply compare_refl_s | apply String.compare_eq_iff]. }
  rewrite Heq. unfold stamp. cbn [lex_compare].
  split.
  - intros H.
    repeat match type of H with
           | context [?a ?= ?b] =>
               destruct (Z.compare_spec a b) as [-> | ? | ?]; try discriminate H
           end.
    reflexivity.
  - intros H. injection H as -> -> -> -> -> -> ->.
    rewrite !Z.compare_refl. reflexivity.
Qed.

(** ** The level letters *)

Lemma int8_cases (P : Z -> bool) :
  forallb P int8s = true -> forall l, int8 l -> P l = true.
Proof.
  intros H l Hl. rewrite forallb_forall in H. apply H.
  apply list_elem_of_In. unfold int8s. apply list_elem_of_fmap.
  exists (Z.to_nat (l + 128)). unfold int8 in Hl. split; [lia |].
  apply elem_of_seq. lia.
Qed.

Section Levels.

Context {ext : Collaborators}.

Lemma EncodeLevel_abbreviated l enc :
  abbreviated l = true ->
  exists x, EncodeLevel l enc = (enc ++ [x])%list /\ String.length x = 1%nat.
Proof.
  unfold abbreviated, EncodeLevel, Zap.AppendString. cbn [existsb].
  repeat match goal with
         | |- context [?a =? ?b] =>
             destruct (Z.eqb_spec a b);
             [intros _; eexists; split; reflexivity |]
         end.
  discriminate.
Qed.

Lemma EncodeLevel_named l enc :
  abbreviated l = false -> EncodeLevel l enc = (enc ++ [CapitalString l])%list.
Proof.
  unfold abbreviated, EncodeLevel, Zap.AppendString. cbn [existsb].
  repeat match goal with
         | |- context [?a =? ?b] => destruct (Z.eqb_spec a b); [discriminate |]
         end.
  reflexivity.
Qed.

Lemma EncodeLevel_letters_distinct l1 l2 enc :
  abbreviated l1 = true -> abbreviated l2 = true ->
  EncodeLevel l1 enc = EncodeLevel l2 enc -> l1 = l2.
Proof.
  unfold abbreviated. cbn [existsb]. intros H1 H2.
  repeat (apply orb_true_iff in H1 as [H1 | H1]); try discriminate H1;
    apply Z.eqb_eq in H1 as ->;
    repeat (apply orb_true_iff in H2 as [H2 | H2]); try discriminate H2;
    apply Z.eqb_eq in H2 as ->;
    intros H; apply app_inv_head in H; first [reflexivity | discriminate H].
Qed.

(** X14.  The level encoder keeps levels apart: the six letters are
    pairwise distinct, so if zapcore's capital names of the other levels
    are pairwise distinct and none is a single byte, two different levels
    are never encoded as the same text. *)
Theorem EncodeLevel_injective (l1 l2 : Zap.Level) (enc : Zap.PrimitiveArrayEncoder) :
  (forall l, int8 l -> abbreviated l = false ->
             String.length (CapitalString l) <> 1%nat) ->
  (forall a b, int8 a -> int8 b -> abbreviated a = false -> abbreviated b = false ->
               CapitalString a = CapitalString b -> a = b) ->
  int8 l1 -> int8 l2 -> l1 <> l2 ->
  EncodeLevel l1 enc <> EncodeLevel l2 enc.
Proof.
  intros Hlen Hinj H1 H2 Hne E. apply Hne.
  destruct (abbreviated l1) eqn:A1, (abbreviated l2) eqn:A2.
  - exact (EncodeLevel_letters_distinct l1 l2 enc A1 A2 E).
  - destruct (EncodeLevel_abbreviated l1 enc A1) as (x & Ex & Hx).
    rewrite Ex, (EncodeLevel_named l2 enc A2) in E.
    apply app_inv_head in E. injection E as ->.
    contradiction (Hlen l2 H2 A2).
  - destruct (EncodeLevel_abbreviated l2 enc A2) as (x & Ex & Hx).
    rewrite Ex, (EncodeLevel_named l1 enc A1) in E.
    apply app_inv_head in E. injection E as <-.
    contradiction (Hlen l1 H1 A1).
  - rewrite (EncodeLevel_named l1 enc A1), (EncodeLevel_named l2 enc A2) in E.
    apply app_inv_head in E. injection E as E. exact (Hinj l1 l2 H1 H2 A1 A2 E).
Qed.

End Levels.



(** ** The model on inputs *)

Example EncodeLevel_samples :
  EncodeLevel (ext := sample_collaborators) Zap.WarnLevel ["20240305 07:08:09.123"]
  = ["20240305 07:08:09.123"; "W"] /\
  EncodeLevel (ext := sample_collaborators) Zap.DPanicLevel [] = ["DPANIC"] /\
  EncodeLevel (ext := sample_collaborators) 7 [] = ["LEVEL(7)"].
Proof. repeat split. Qed.

Example Setup_file_and_console :
  let c := {| Level := "Warning"; Path := "/var/log/app.log";
              Console := true; Async := true |} in
  let g := (Setup (ext := sample_collaborators) (Some c) fresh).1 in
  threshold g = Some Zap.WarnLevel /\
  (Zap.destinations <$> sink g) = Some [Zap.osStdout; rotating_file c] /\
  (sink g ≫= Zap.bufferSize) = Some 4096.
Proof. repeat split. Qed.

Lemma run_default schedule (s0 d : State) :
  match run (ext := sample_collaborators) schedule s0 with
  | Some _ => true
  | None => false
  end = true ->
  run (ext := sample_collaborators) schedule s0
  = Some (default d (run (ext := sample_collaborators) schedule s0)).
Proof. destruct (run schedule s0); [reflexivity | discriminate]. Qed.

Lemma first_calls_no_Setup : no_Setup_calls first_calls.
Proof.
  intros p Hp. unfold first_calls in Hp.
  repeat (apply elem_of_cons in Hp as [-> | Hp]; [reflexivity |]).
  by apply elem_of_nil in Hp.
Qed.

Lemma first_calls_reachable :
  reachable (ext := sample_collaborators) first_calls first_calls_state.
Proof.
  exists first_calls_schedule. apply run_default. vm_compute. reflexivity.
Qed.

(** Three concurrent first calls: one construction of the default logger,
    three entries, all through it. *)
Lemma lazy_default_init_three_threads :
  no_Setup_calls first_calls /\
  reachable (ext := sample_collaborators) first_calls first_calls_state /\
  defaultBuilt first_calls_state = 1%nat /\
  bodyRuns first_calls_state = 1%nat /\
  length (output first_calls_state) = 3%nat /\
  forallb finished (threads first_calls_state) = true /\
  (forall e, e ∈ output first_calls_state ->
             via e = Zap.Sugar (default_logger (ext := sample_collaborators)) /\
             defaultBuilt first_calls_state = 1%nat).
Proof.
  pose proof first_calls_no_Setup as Hn.
  pose proof first_calls_reachable as Hr.
  destruct (lazy_default_init (ext := sample_collaborators))
    as (_ & _ & _ & _ & Hc & _ & _).
  destruct (Hc first_calls first_calls_state Hn Hr) as (_ & _ & _ & _ & _ & Hvia & _).
  split; [exact Hn |]. split; [exact Hr |].
  split; [vm_compute; reflexivity |]. split; [vm_compute; reflexivity |].
  split; [vm_compute; reflexivity |]. split; [vm_compute; reflexivity |].
  exact Hvia.
Defined.

Lemma race_reachable : reachable (ext := sample_collaborators) race race_state.
Proof. exists race_schedule. apply run_default. vm_compute. reflexivity. Qed.

(** [Setup] completes between the fast-path check of a first logging call
    and its re-check: the re-check finds the handle of [Setup] and leaves
    it. *)
Lemma Setup_wins_race :
  reachable (ext := sample_collaborators) race race_state /\
  installs race_state
  = [SetupInstall (Some {| Level := "INFO"; Path := "/var/log/app.log";
                           Console := true; Async := false |})] /\
  (pc <$> threads race_state !! 0%nat) = Some EI_Recheck /\
  defaultBuilt race_state = 0%nat /\
  exists s' t',
    tstep (ext := sample_collaborators) 0 race_state = Some s' /\
    st_sugar s' = st_sugar race_state /\
    st_logger s' = st_logger race_state /\
    defaultBuilt s' = defaultBuilt race_state /\
    threads s' !! 0%nat = Some t' /\ pc t' = EI_Unlock.
Proof.
  pose proof race_reachable as Hr.
  destruct (Setup_wins (ext := sample_collaborators) race race_state Hr)
    as (_ & _ & _ & Hkeep & Hskip).
  assert (Hat : (pc <$> threads race_state !! 0%nat) = Some EI_Recheck)
    by (vm_compute; reflexivity).
  split; [exact Hr |]. split; [vm_compute; reflexivity |].
  split; [exact Hat |]. split; [vm_compute; reflexivity |].
  destruct (threads race_state !! 0%nat) as [t |] eqn:Ht; [| discriminate Hat].
  injection Hat as Hpc.
  assert (Hset : is_Some (st_sugar race_state)).
  { assert (E : match st_sugar race_state with Some _ => true | None => false end
                 = true) by (vm_compute; reflexivity).
    destruct (st_sugar race_state); [eauto | discriminate E]. }
  assert (Hgo : match tstep (ext := sample_collaborators) 0 race_state with
                | Some _ => true
                | None => false
                end = true) by (vm_compute; reflexivity).
  destruct (tstep (ext := sample_collaborators) 0 race_state) as [s' |] eqn:Hs;
    [| discriminate Hgo].
  destruct (Hkeep 0%nat t s' Ht ltac:(rewrite Hpc; reflexivity) Hs Hset)
    as (Hsg & Hlg & _ & Hb).
  destruct (Hskip 0%nat t s' Ht Hpc Hs Hset) as (t' & Ht' & Hpc').
  exists s', t'. repeat split; assumption.
Defined.

(** The instant of the specification's example. *)
Lemma EncodeTime_pattern_sample :
  GoTime.valid (GoTime.mkTime 2024 3 5 65 7 8 9 123000000) /\
  0 <= 2024 <= 9999 /\
  EncodeTime (GoTime.mkTime 2024 3 5 65 7 8 9 123000000) []
  = ["20240305 07:08:09.123"] /\
  has_shape "dddddddd dd:dd:dd.ddd" "20240305 07:08:09.123" = true.
Proof.
  assert (Hv : GoTime.valid (GoTime.mkTime 2024 3 5 65 7 8 9 123000000))
    by (unfold GoTime.valid; cbn; lia).
  assert (Hy : 0 <= GoTime.Year (GoTime.mkTime 2024 3 5 65 7 8 9 123000000) <= 9999)
    by (cbn; lia).
  destruct (EncodeTime_pattern _ [] Hv Hy) as (He & Hs & _).
  split; [exact Hv |]. split; [lia |]. split; [exact He | exact Hs].
Defined.

(** C6, as stated, fails for a year of five digits: the year is written in
    full, the text has 22 bytes and not the shape of the pattern. *)
Lemma EncodeTime_year_10000 :
  GoTime.valid (GoTime.mkTime 10000 1 1 1 0 0 0 0) /\
  EncodeTime (GoTime.mkTime 10000 1 1 1 0 0 0 0) [] = ["100000101 00:00:00.000"] /\
  has_shape "dddddddd dd:dd:dd.ddd" "100000101 00:00:00.000" = false.
Proof.
  split; [unfold GoTime.valid; cbn; lia |]. split; reflexivity.
Qed.

(** ** More of the model on inputs *)

Lemma thread_at (s : State) (i : nat) (p : PC) :
  (pc <$> threads s !! i) = Some p -> exists t, threads s !! i = Some t /\ pc t = p.
Proof. destruct (threads s !! i) as [t |]; intros H; simplify_eq/=. eauto. Qed.

Lemma handle_set (s : State) :
  match st_sugar s with Some _ => true | None => false end = true ->
  is_Some (st_sugar s).
Proof. destruct (st_sugar s); [eauto | discriminate]. Qed.

Lemma overlap_reachable : reachable (ext := sample_collaborators) overlap overlap_state.
Proof. exists overlap_schedule. apply run_default. vm_compute. reflexivity. Qed.

Lemma race_end_run :
  run (ext := sample_collaborators) race_end_schedule race_state = Some race_end_state.
Proof. apply run_default. vm_compute. reflexivity. Qed.

(** [Setup] inside its critical section, a logging call at its forwarding
    call: the second holds no lock. *)
Lemma initMu_exclusive_overlap :
  reachable (ext := sample_collaborators) overlap overlap_state /\
  exists t1 t0,
    threads overlap_state !! 1%nat = Some t1 /\ pc t1 = SU_Unlock /\
    threads overlap_state !! 0%nat = Some t0 /\ pc t0 = Forward /\
    holdsW (pc t1) = true /\
    (holdsW (pc t0) = true -> 1%nat = 0%nat) /\ holdsR (pc t0) = false.
Proof.
  pose proof overlap_reachable as Hr.
  destruct (thread_at overlap_state 1 SU_Unlock ltac:(vm_compute; reflexivity))
    as (t1 & H1 & Hp1).
  destruct (thread_at overlap_state 0 Forward ltac:(vm_compute; reflexivity))
    as (t0 & H0 & Hp0).
  assert (Hw : holdsW (pc t1) = true) by (rewrite Hp1; reflexivity).
  split; [exact Hr |]. exists t1, t0.
  repeat (split; [assumption |]).
  exact (initMu_exclusive (ext := sample_collaborators) overlap overlap_state
           1%nat 0%nat t1 t0 Hr H1 H0 Hw).
Defined.

(** The re-check of the first thread of [race] is made under the write
    lock. *)
Lemma handle_accessed_under_lock_race :
  reachable (ext := sample_collaborators) race race_state /\
  exists t,
    threads race_state !! 0%nat = Some t /\ pc t = EI_Recheck /\
    writer (st_initMu race_state) = Some 0%nat.
Proof.
  pose proof race_reachable as Hr.
  destruct (thread_at race_state 0 EI_Recheck ltac:(vm_compute; reflexivity))
    as (t & Ht & Hp).
  destruct (handle_accessed_under_lock (ext := sample_collaborators)
              race race_state 0%nat t Hr Ht) as (_ & _ & _ & Hre).
  split; [exact Hr |]. exists t. split; [exact Ht |]. split; [exact Hp |].
  exact (Hre Hp).
Defined.


(** After three concurrent first calls nobody holds the lock, and [sugar]
    is the sugared [logger]. *)
Lemma handle_pair_consistent_first_calls :
  reachable (ext := sample_collaborators) first_calls first_calls_state /\
  writer (st_initMu first_calls_state) = None /\
  st_sugar first_calls_state = (Zap.Sugar <$> st_logger first_calls_state).
Proof.
  pose proof first_calls_reachable as Hr.
  assert (Hw : writer (st_initMu first_calls_state) = None)
    by (vm_compute; reflexivity).
  destruct (handle_pair_consistent (ext := sample_collaborators)
              first_calls first_calls_state Hr) as (_ & Hfree & _).
  split; [exact Hr |]. split; [exact Hw |]. exact (Hfree Hw).
Defined.

(** From the re-check of [race], the process runs to its end. *)
Lemma runs_to_completion_race :
  reachable (ext := sample_collaborators) race race_state /\
  exists schedule s',
    run_wp (ext := sample_collaborators) schedule race_state = Some s' /\
    (length schedule <= total race_state)%nat /\
    (is_Some (exited s') \/
     forall j t, threads s' !! j = Some t -> finished t = true).
Proof.
  pose proof race_reachable as Hr. split; [exact Hr |].
  exact (proj1 (proj2 (runs_to_completion (ext := sample_collaborators)
                         race race_state Hr))).
Defined.

(** The first thread of [race] finishes its call: the handle of [Setup]
    stays, nothing is built, nothing is installed. *)
Lemma handle_never_reset_race :
  reachable (ext := sample_collaborators) race race_state /\
  run (ext := sample_collaborators) race_end_schedule race_state
  = Some race_end_state /\
  is_Some (st_sugar race_state) /\
  is_Some (st_sugar race_end_state) /\ is_Some (st_logger race_end_state) /\
  defaultBuilt race_end_state = defaultBuilt race_state /\
  exists new, installs race_end_state = (new ++ installs race_state)%list /\
              forallb isSetupInstall new = true.
Proof.
  pose proof race_reachable as Hr. pose proof race_end_run as Hrun.
  assert (Hset : is_Some (st_sugar race_state))
    by (apply handle_set; vm_compute; reflexivity).
  split; [exact Hr |]. split; [exact Hrun |]. split; [exact Hset |].
  exact (handle_never_reset (ext := sample_collaborators)
           race race_state race_end_schedule race_end_state Hr Hrun Hset).
Defined.


(** Three concurrent first calls: each thread wrote at most the entry of
    its call. *)
Lemma output_traces_calls_first_calls :
  reachable (ext := sample_collaborators) first_calls first_calls_state /\
  length (output first_calls_state) = 3%nat /\
  (forall j t prog,
     threads first_calls_state !! j = Some t -> first_calls !! j = Some prog ->
     exists past,
       prog = (past ++ calls t)%list /\
       rev (written_by j first_calls_state)
         `sublist_of` forwarded_entries (made t past)) /\
  (forall e, e ∈ output first_calls_state ->
     Zap.Enabled (Zap.enab (Zap.core (Zap.base (via e))))
                 (Zap.EntryLevel (entry e)) = true /\
     exists ins, ins ∈ installs first_calls_state /\
                 via e = installed (ext := sample_collaborators) ins).
Proof.
  pose proof first_calls_reachable as Hr.
  split; [exact Hr |]. split; [vm_compute; reflexivity |].
  exact (output_traces_calls (ext := sample_collaborators)
           first_calls first_calls_state Hr).
Defined.

(** Three concurrent first calls, no [Setup]: each thread wrote exactly the
    entry of its call. *)
Lemma default_output_exact_first_calls :
  no_Setup_calls first_calls /\
  reachable (ext := sample_collaborators) first_calls first_calls_state /\
  written_by 1 first_calls_state
  = [{| Zap.EntryLevel := Zap.InfoLevel;
        Zap.EntryMessage := Zap.Sprintf "%d workers" [Zap.VInt 4] |}] /\
  forall j t prog,
    threads first_calls_state !! j = Some t -> first_calls !! j = Some prog ->
    exists past,
      prog = (past ++ calls t)%list /\
      rev (written_by j first_calls_state) = forwarded_entries (made t past).
Proof.
  pose proof first_calls_no_Setup as Hn. pose proof first_calls_reachable as Hr.
  split; [exact Hn |]. split; [exact Hr |]. split; [vm_compute; reflexivity |].
  exact (default_output_exact (ext := sample_collaborators)
           first_calls first_calls_state Hn Hr).
Defined.

(** With the error threshold, [Warn] writes nothing and returns; [Panic]
    is written and panics. *)
Lemma Setup_then_log_error :
  forwarded (CallWarn [Zap.VString "slow"])
  = Some (Zap.WarnLevel, Zap.Sprint [Zap.VString "slow"]) /\
  exists th,
    threshold (Setup (ext := sample_collaborators)
                 (Some {| Level := "error"; Path := "app.log";
                          Console := true; Async := false |}) fresh).1 = Some th /\
    th = Zap.ErrorLevel /\
    call (ext := sample_collaborators) (CallWarn [Zap.VString "slow"])
      (Setup (ext := sample_collaborators)
         (Some {| Level := "error"; Path := "app.log";
                  Console := true; Async := false |}) fresh).1
    = ((Setup (ext := sample_collaborators)
          (Some {| Level := "error"; Path := "app.log";
                   Console := true; Async := false |}) fresh).1,
       Log (Logged
              (Zap.Sugar (setup_logger (ext := sample_collaborators)
                            (Some {| Level := "error"; Path := "app.log";
                                     Console := true; Async := false |})))
              (if th <=? Zap.WarnLevel
               then Some {| Zap.EntryLevel := Zap.WarnLevel;
                            Zap.EntryMessage := Zap.Sprint [Zap.VString "slow"] |}
               else None)
              (Zap.terminal Zap.WarnLevel))).
Proof.
  assert (Hf : forwarded (CallWarn [Zap.VString "slow"])
               = Some (Zap.WarnLevel, Zap.Sprint [Zap.VString "slow"]))
    by reflexivity.
  split; [exact Hf |].
  destruct (Setup_then_log (ext := sample_collaborators)
              (Some {| Level := "error"; Path := "app.log";
                       Console := true; Async := false |})
              fresh _ _ _ Hf) as (th & Hth & Hcall).
  exists th. split; [exact Hth |]. split; [| exact Hcall].
  vm_compute in Hth. injection Hth as <-. reflexivity.
Defined.

(** A level name followed by a space is not a level name. *)
Lemma Setup_level_lookup_trailing_space :
  GoStrings.allASCII "WARN " = true /\
  threshold (Setup (ext := sample_collaborators)
               (Some {| Level := "WARN "; Path := "app.log";
                        Console := false; Async := false |}) fresh).1
  = Some Zap.DebugLevel /\
  lookup_fold "Warning" level_names = Zap.WarnLevel /\
  lookup_fold "dpanic" level_names = Zap.DebugLevel.
Proof.
  assert (Ha : GoStrings.allASCII "WARN " = true) by reflexivity.
  destruct (Setup_level_lookup (ext := sample_collaborators)
              {| Level := "WARN "; Path := "app.log";
                 Console := false; Async := false |} fresh Ha) as [E _].
  split; [exact Ha |]. split; [rewrite E; reflexivity |]. split; reflexivity.
Defined.

(** The last millisecond of 2024 and the first of 2025. *)
Lemma EncodeTime_order_new_year :
  GoTime.valid (GoTime.mkTime 2024 12 31 366 23 59 59 999999999) /\
  GoTime.valid (GoTime.mkTime 2025 1 1 1 0 0 0 0) /\
  0 <= 2024 <= 9999 /\ 0 <= 2025 <= 9999 /\
  lex_compare (stamp (GoTime.mkTime 2024 12 31 366 23 59 59 999999999))
              (stamp (GoTime.mkTime 2025 1 1 1 0 0 0 0)) = Lt /\
  exists x1 x2,
    EncodeTime (GoTime.mkTime 2024 12 31 366 23 59 59 999999999) [] = [x1] /\
    EncodeTime (GoTime.mkTime 2025 1 1 1 0 0 0 0) [] = [x2] /\
    String.compare x1 x2 = Lt.
Proof.
  assert (Hv1 : GoTime.valid (GoTime.mkTime 2024 12 31 366 23 59 59 999999999))
    by (unfold GoTime.valid; cbn; lia).
  assert (Hv2 : GoTime.valid (GoTime.mkTime 2025 1 1 1 0 0 0 0))
    by (unfold GoTime.valid; cbn; lia).
  assert (Hy1 : 0 <= GoTime.Year (GoTime.mkTime 2024 12 31 366 23 59 59 999999999) <= 9999)
    by (cbn; lia).
  assert (Hy2 : 0 <= GoTime.Year (GoTime.mkTime 2025 1 1 1 0 0 0 0) <= 9999)
    by (cbn; lia).
  destruct (EncodeTime_order _ _ [] Hv1 Hv2 Hy1 Hy2) as (x1 & x2 & H1 & H2 & Hc & _).
  split; [exact Hv1 |]. split; [exact Hv2 |]. split; [lia |]. split; [lia |].
  split; [reflexivity |].
  exists x1, x2. split; [exact H1 |]. split; [exact H2 |]. exact Hc.
Defined.

(** zapcore's names *)
Lemma zap_names_long l :
  int8 l -> abbreviated l = false ->
  String.length (zap_CapitalString l) <> 1%nat.
Proof.
  intros Hl Ha.
  pose proof (int8_cases
    (fun l => abbreviated l || negb (Nat.eqb (String.length (zap_CapitalString l)) 1))
    ltac:(vm_compute; reflexivity) l Hl) as H.
  cbv beta in H. rewrite Ha in H. cbn [orb] in H.
  apply negb_true_iff, Nat.eqb_neq in H. exact H.
Qed.

Lemma zap_names_distinct a b :
  int8 a -> int8 b -> abbreviated a = false -> abbreviated b = false ->
  zap_CapitalString a = zap_CapitalString b -> a = b.
Proof.
  intros Ha Hb _ _ E.
  pose proof (int8_cases
    (fun a => forallb (fun b => negb (String.eqb (zap_CapitalString a) (zap_CapitalString b))
                                || (a =? b)) int8s)
    ltac:(vm_compute; reflexivity) a Ha) as H.
  cbv beta in H.
  pose proof (int8_cases _ H b Hb) as H'. cbv beta in H'.
  apply String.eqb_eq in E. rewrite E in H'. cbn [negb orb] in H'.
  apply Z.eqb_eq. exact H'.
Qed.


(** With zapcore's names, DPANIC and the letter of panic are kept apart. *)
Lemma EncodeLevel_injective_zap :
  int8 Zap.DPanicLevel /\ int8 Zap.PanicLevel /\
  Zap.DPanicLevel <> Zap.PanicLevel /\
  EncodeLevel (ext := sample_collaborators) Zap.DPanicLevel []
  <> EncodeLevel (ext := sample_collaborators) Zap.PanicLevel [].
Proof.
  assert (H1 : int8 Zap.DPanicLevel)
    by (unfold int8, Zap.DPanicLevel; lia).
  assert (H2 : int8 Zap.PanicLevel)
    by (unfold int8, Zap.PanicLevel; lia).
  assert (Hne : Zap.DPanicLevel <> Zap.PanicLevel) by discriminate.
  split; [exact H1 |]. split; [exact H2 |]. split; [exact Hne |].
  exact (EncodeLevel_injective (ext := sample_collaborators) _ _ []
           zap_names_long zap_names_distinct H1 H2 Hne).
Defined.
